(** * The hashed page table of kern/vm/addrspace.c

    A shallow embedding of the address-space layer: the global hashed page
    table [hpt] with its chained buckets, the lookup and insertion routines,
    region definition, duplication, destruction and the load-bit protocol,
    followed by the properties the specification states about them.

    The embedding is sequential: [hpt_lock] and the interrupt level raised
    around the TLB writes do not appear. Every function is a computation in a
    state monad over the kernel state; a loop that the code does not bound
    takes fuel. *)

From Stdlib Require Import ZArith Lia Bool.
From stdpp Require Import base list.

Local Open Scope Z_scope.

(** ** Machine words *)

(** [uint32_t], [vaddr_t], [paddr_t] and [size_t] are 32-bit unsigned on the
    MIPS target: arithmetic on them wraps modulo 2^32. *)
Definition u32 (x : Z) : Z := x mod 2 ^ 32.

(** ** Constants of headers that are not part of the source file *)

(** Modelled from the spec: the page size is 4096 bytes ([PAGE_SIZE] of the
    machine-dependent vm.h, which is not among the sources). *)
Definition PAGE_SIZE : Z := 4096.

(** Modelled from the spec: virtual tags are page-aligned, so the mask
    [PAGE_FRAME] of vm.h keeps the bits above the 4096-byte page offset. *)
Definition PAGE_FRAME : Z := 0xfffff000.

(** Modelled from the spec: the kernel-reserved virtual address boundary
    [MIPS_KSEG0] of vm.h, which is not among the sources; on MIPS the kernel
    segment starts at 2^31. *)
Definition MIPS_KSEG0 : Z := 0x80000000.

(** Modelled from the spec: the fixed top-of-stack virtual address
    [USERSTACK] of vm.h, which is the start of the kernel segment. *)
Definition USERSTACK : Z := MIPS_KSEG0.

(** Modelled from the spec: a flush invalidates every hardware
    translation-cache slot. mips/tlb.h is not among the sources; the number of
    slots [NUM_TLB] and the invalid slot contents are those of the MIPS port
    of OS/161. *)
Definition NUM_TLB : nat := 64.
Definition TLBHI_INVALID (entryno : Z) : Z := u32 (Z.shiftl (0x80000 + entryno) 12).
Definition TLBLO_INVALID : Z := 0.

(** Modelled from the spec: the two error kinds, OutOfMemory ([ENOMEM]) and
    InvalidRange ([EFAULT]). kern/errno.h is not among the sources; the
    values are those of OS/161. *)
Definition ENOMEM : Z := 3.
Definition EFAULT : Z := 6.

(** The constants of addrspace.h, which is not among the sources either, are
    parameters of the development. [HPTABLE_VALID], [HPTABLE_GLOBAL] and
    [HPTABLE_DIRTY] are bit positions (the code shifts 1 by them);
    [HPTABLE_WRITE], [HPTABLE_SWRITE] and [HPTABLE_STATEBITS] are masks. *)
Record layout : Type := Layout {
  PAGE_BITS : Z;
  FLAG_OFFSET : Z;
  HPTABLE_VALID : Z;
  HPTABLE_GLOBAL : Z;
  HPTABLE_DIRTY : Z;
  HPTABLE_WRITE : Z;
  HPTABLE_SWRITE : Z;
  HPTABLE_STATEBITS : Z;
  HPTABLE_STACK_RW : Z;
  STACK_PAGE : Z
}.

(** The external allocators are consumed as capability calls. A run of the
    kernel fixes the sequence of their answers: [kmalloc_ret n] is what the
    [n]-th call of [kmalloc] returns (0 is [NULL]), [alloc_kpages_ret n] what
    the [n]-th call of [alloc_kpages(1)] returns (0 is failure). *)
Record allocators : Type := Allocators {
  kmalloc_ret : nat -> Z;
  alloc_kpages_ret : nat -> Z
}.

(** ** Data model *)

(** [struct hpt_entry] without its [next] link: a chain is the list of its
    entries from the bucket head on. *)
Record hpt_entry : Type := Entry {
  pid : Z;
  entry_hi : Z;
  entry_lo : Z
}.

Abbreviation chain := (list hpt_entry).

(** The kernel state the functions read and write. [hpt] is the bucket array
    (its length is the global [hpt_size]); [ram] is byte-addressed memory;
    [tlb] the translation cache; the two counters index the allocators'
    answers; [freed_pages] and [kfreed] log the arguments of [free_kpages]
    and of [kfree] on address-space handles, oldest first; [curproc_as] is
    what [proc_getas] returns. *)
Record kernel : Type := Kernel {
  hpt : list chain;
  ram : Z -> Z;
  tlb : list (Z * Z);
  kmalloc_calls : nat;
  kpages_calls : nat;
  freed_pages : list Z;
  kfreed : list Z;
  curproc_as : Z
}.

Definition hpt_size (st : kernel) : Z := Z.of_nat (length (hpt st)).

Definition set_hpt (t : list chain) (st : kernel) : kernel :=
  Kernel t (ram st) (tlb st) (kmalloc_calls st) (kpages_calls st)
         (freed_pages st) (kfreed st) (curproc_as st).

Definition set_ram (m : Z -> Z) (st : kernel) : kernel :=
  Kernel (hpt st) m (tlb st) (kmalloc_calls st) (kpages_calls st)
         (freed_pages st) (kfreed st) (curproc_as st).

Definition set_tlb (t : list (Z * Z)) (st : kernel) : kernel :=
  Kernel (hpt st) (ram st) t (kmalloc_calls st) (kpages_calls st)
         (freed_pages st) (kfreed st) (curproc_as st).

(** ** Outcomes and the kernel monad *)

(** A call returns a value and a new state, stores through a [NULL] pointer
    ([Fault]), or is still running when the fuel of a loop is spent. *)
Inductive outcome (A : Type) : Type :=
| Ret (a : A) (st : kernel)
| Fault
| OutOfFuel.

Arguments Ret {A} a st.
Arguments Fault {A}.
Arguments OutOfFuel {A}.

Definition M (A : Type) : Type := kernel -> outcome A.

Definition ret {A} (a : A) : M A := fun st => Ret a st.

Definition bind {A B} (m : M A) (k : A -> M B) : M B :=
  fun st => match m st with
            | Ret a st' => k a st'
            | Fault => Fault
            | OutOfFuel => OutOfFuel
            end.

Definition fault {A} : M A := fun _ => Fault.
Definition get : M kernel := fun st => Ret st st.
Definition modify (f : kernel -> kernel) : M unit := fun st => Ret tt (f st).

Notation "x <- m ;; k" := (bind m (fun x => k))
  (at level 100, m at next level, right associativity).
Notation "m ;;; k" := (bind m (fun _ => k))
  (at level 100, right associativity).

(** ** External collaborators *)

Section Addrspace.

Variable L : layout.
Variable alloc : allocators.

Definition kmalloc : M Z := fun st =>
  Ret (kmalloc_ret alloc (kmalloc_calls st))
      (Kernel (hpt st) (ram st) (tlb st) (S (kmalloc_calls st)) (kpages_calls st)
              (freed_pages st) (kfreed st) (curproc_as st)).

Definition alloc_kpages : M Z := fun st =>
  Ret (u32 (alloc_kpages_ret alloc (kpages_calls st)))
      (Kernel (hpt st) (ram st) (tlb st) (kmalloc_calls st) (S (kpages_calls st))
              (freed_pages st) (kfreed st) (curproc_as st)).

Definition free_kpages (addr : Z) : M unit := fun st =>
  Ret tt (Kernel (hpt st) (ram st) (tlb st) (kmalloc_calls st) (kpages_calls st)
                 (freed_pages st ++ [addr]) (kfreed st) (curproc_as st)).

Definition kfree (ptr : Z) : M unit := fun st =>
  Ret tt (Kernel (hpt st) (ram st) (tlb st) (kmalloc_calls st) (kpages_calls st)
                 (freed_pages st) (kfreed st ++ [ptr]) (curproc_as st)).

(** [memmove(dst, src, len)]: the [len] bytes at [dst] become the bytes that
    were at [src]. *)
Definition memmove (dst src len : Z) : M unit :=
  modify (fun st =>
    set_ram (fun a => if (dst <=? a) && (a <? dst + len)
                      then ram st (src + (a - dst)) else ram st a) st).

Definition proc_getas : M Z := fun st => Ret (curproc_as st) st.

(** ** The hashed page table *)

(** [hpt[index]]: the chain of a bucket; the empty chain is the [NULL] head. *)
Definition bucket (t : list chain) (index : nat) : chain :=
  default [] (t !! index).

Definition hpt_hash (as_ vpn : Z) (st : kernel) : Z :=
  (Z.lxor (u32 as_) (Z.shiftr vpn (PAGE_BITS L))) mod hpt_size st.

(** The walk of [find] along one chain. *)
Fixpoint find_chain (p vpn : Z) (c : chain) : option hpt_entry :=
  match c with
  | [] => None
  | ptr :: next =>
      if (pid ptr =? p) && (vpn =? Z.land (entry_hi ptr) PAGE_FRAME)
      then Some ptr
      else find_chain p vpn next
  end.

Definition find (as_ vpn : Z) (st : kernel) : option hpt_entry :=
  let p := u32 as_ in
  let index := Z.to_nat (hpt_hash as_ vpn st) in
  find_chain p vpn (bucket (hpt st) index).

(** The walk of [insert_page_table_entry] to the last entry of a chain, where
    the new entry is linked; on the empty chain ([hpt[index] == NULL]) the new
    entry becomes the head. *)
Fixpoint link_tail (new : hpt_entry) (c : chain) : chain :=
  match c with
  | [] => [new]
  | ptr :: next => ptr :: link_tail new next
  end.

(** [kmalloc]'s answer is not checked: on [NULL] the first store through
    [new] faults. Otherwise the function returns [true]. *)
Definition insert_page_table_entry (as_ entry_hi_ entry_lo_ : Z) : M bool :=
  let vpn := Z.land entry_hi_ PAGE_FRAME in
  st <- get ;;
  let index := Z.to_nat (hpt_hash as_ vpn st) in
  new <- kmalloc ;;
  if new =? 0 then fault
  else
    modify (fun st => set_hpt (alter (link_tail (Entry (u32 as_) vpn entry_lo_))
                                     index (hpt st)) st) ;;;
    ret true.

(** ** Region definition *)

(** [1 << k] as it enters a 32-bit word, and [x &= ~m] on a 32-bit word. *)
Definition bit (k : Z) : Z := u32 (Z.shiftl 1 k).
Definition clear_bits (x m : Z) : Z := Z.land x (Z.lnot m).

(** [entry_lo] as [define_memory] builds it for every page of a region; the
    frame [paddr] is 0, unassigned. *)
Definition region_entry_lo (permissions : Z) : Z :=
  let paddr := 0 in
  let entry_lo_ := Z.lor (Z.lor (Z.land paddr PAGE_FRAME) (bit (HPTABLE_VALID L)))
                         (bit (HPTABLE_GLOBAL L)) in
  let entry_lo_ := if negb (Z.land permissions (HPTABLE_WRITE L) =? 0)
                   then Z.lor entry_lo_ (bit (HPTABLE_DIRTY L))
                   else clear_bits entry_lo_ (Z.shiftl 1 (HPTABLE_DIRTY L)) in
  let entry_lo_ := Z.lor entry_lo_ (u32 permissions) in
  Z.lor entry_lo_ (u32 (HPTABLE_SWRITE L)).

(** The loop [for (start = base; start < top; start++)] with [n] iterations
    left. *)
Fixpoint define_pages (n : nat) (as_ start permissions : Z) : M Z :=
  match n with
  | O => ret 0
  | S n' =>
      let entry_hi_ := u32 (Z.shiftl start (FLAG_OFFSET L)) in
      ok <- insert_page_table_entry as_ entry_hi_ (region_entry_lo permissions) ;;
      if negb ok then ret ENOMEM
      else define_pages n' as_ (start + 1) permissions
  end.

Definition define_memory (as_ addr memsize permissions : Z) : M Z :=
  if MIPS_KSEG0 <? u32 (addr + memsize) then ret EFAULT
  else
    let top := u32 (u32 (addr + memsize) + PAGE_SIZE - 1) / PAGE_SIZE in
    let base := addr / PAGE_SIZE in
    define_pages (Z.to_nat (top - base)) as_ base permissions.

(** [allocate_memory(ptr)] for the entry [ptr] at position [j] of the chain
    of bucket [i]: the frame is or-ed into [entry_lo] before the test. *)
Definition allocate_memory (i j : nat) : M Z :=
  vaddr <- alloc_kpages ;;
  modify (fun st =>
    set_hpt (alter (alter (fun ptr => Entry (pid ptr) (entry_hi ptr)
                                            (Z.lor (entry_lo ptr) vaddr)) j)
                   i (hpt st)) st) ;;;
  if vaddr =? 0 then ret ENOMEM
  else ret 0.

(** ** The translation cache *)

Definition tlb_write (entryhi entrylo : Z) (index : nat) : M unit :=
  modify (fun st => set_tlb (<[index := (entryhi, entrylo)]> (tlb st)) st).

(** The loop of [tlb_flush] from slot [i] on, with [n] slots left. *)
Fixpoint tlb_flush_from (n i : nat) : M unit :=
  match n with
  | O => ret tt
  | S n' =>
      tlb_write (TLBHI_INVALID (Z.of_nat i)) TLBLO_INVALID i ;;;
      tlb_flush_from n' (S i)
  end.

Definition tlb_flush : M unit := tlb_flush_from NUM_TLB 0.

(** ** Address-space lifecycle *)

Definition as_create : M Z :=
  as_ <- kmalloc ;;
  if as_ =? 0 then ret 0
  else tlb_flush ;;; ret as_.

(** The inner loop of [as_destroy] over one chain; it returns the chain as
    relinked, and releases the frame field of every unlinked entry. *)
Fixpoint destroy_chain (p : Z) (c : chain) : M chain :=
  match c with
  | [] => ret []
  | ptr :: next =>
      if negb (pid ptr =? p) then
        kept <- destroy_chain p next ;;
        ret (ptr :: kept)
      else
        free_kpages (Z.land (entry_lo ptr) PAGE_FRAME) ;;;
        destroy_chain p next
  end.

(** The outer loop of [as_destroy] over the bucket array. *)
Fixpoint destroy_buckets (p : Z) (t : list chain) : M (list chain) :=
  match t with
  | [] => ret []
  | c :: rest =>
      c' <- destroy_chain p c ;;
      rest' <- destroy_buckets p rest ;;
      ret (c' :: rest')
  end.

Definition as_destroy (as_ : Z) : M unit :=
  let p := u32 as_ in
  st <- get ;;
  t <- destroy_buckets p (hpt st) ;;
  modify (set_hpt t) ;;;
  tlb_flush ;;;
  kfree as_.

(** The body of the inner loop of [as_copy] at an entry [ptr] of the old
    address space. [Some e] is [return e]; [None] reaches the end of the body,
    where [ptr] is left as it is. *)
Definition copy_entry (newas : Z) (ptr : hpt_entry) : M (option Z) :=
  let old_entry_lo := Z.land (entry_lo ptr) PAGE_FRAME in
  frame <- (if negb (old_entry_lo =? 0) then
              new_entry_lo <- alloc_kpages ;;
              if new_entry_lo =? 0 then ret None
              else memmove new_entry_lo old_entry_lo PAGE_SIZE ;;;
                   ret (Some new_entry_lo)
            else ret (Some old_entry_lo)) ;;
  match frame with
  | None => ret (Some ENOMEM)
  | Some new_entry_lo =>
      let new_entry_lo :=
        Z.lor new_entry_lo
          (Z.lor (Z.lor (Z.lor (Z.land (entry_lo ptr) (HPTABLE_STATEBITS L))
                               (Z.land (entry_lo ptr) (bit (HPTABLE_DIRTY L))))
                        (Z.land (entry_lo ptr) (bit (HPTABLE_VALID L))))
                 (Z.land (entry_lo ptr) (bit (HPTABLE_GLOBAL L)))) in
      ok <- insert_page_table_entry newas (entry_hi ptr) new_entry_lo ;;
      if negb ok then as_destroy newas ;;; ret (Some ENOMEM)
      else ret None
  end.

(** The two nested loops of [as_copy], one unit of fuel per test of a loop
    condition. The cursor is the bucket index [i] and the position [j] of
    [ptr] in the chain of that bucket; [ptr == NULL] when [j] is past the end
    of the chain. The table is read afresh at every step, since
    [insert_page_table_entry] links into the chains being walked. *)
Fixpoint copy_loop (fuel : nat) (p newas : Z) (i j : nat) : M Z :=
  match fuel with
  | O => fun _ => OutOfFuel
  | S fuel' =>
      st <- get ;;
      if (length (hpt st) <=? i)%nat then ret 0
      else
        match bucket (hpt st) i !! j with
        | None => copy_loop fuel' p newas (S i) 0%nat
        | Some ptr =>
            if negb (pid ptr =? p) then copy_loop fuel' p newas i (S j)
            else
              r <- copy_entry newas ptr ;;
              match r with
              | Some e => ret e
              | None => copy_loop fuel' p newas i j
              end
        end
  end.

(** [as_copy] returns its error code and, on success, the handle stored in
    [*ret]. *)
Definition as_copy (fuel : nat) (old : Z) : M (Z * option Z) :=
  newas <- as_create ;;
  if newas =? 0 then ret (ENOMEM, None)
  else
    let p := u32 old in
    r <- copy_loop fuel p newas 0 0 ;;
    if negb (r =? 0) then ret (r, None)
    else ret (0, Some newas).

Definition as_define_region
    (as_ vaddr memsize readable writeable executable : Z) : M Z :=
  result <- define_memory as_ vaddr memsize
              (Z.shiftl (Z.lor (Z.lor readable writeable) executable) 1) ;;
  if negb (result =? 0) then ret ENOMEM
  else ret 0.

Definition as_prepare_load (as_ : Z) : M Z := ret 0.

(** The inner loop of [as_complete_load] over one chain. *)
Fixpoint complete_chain (p : Z) (c : chain) : chain :=
  match c with
  | [] => []
  | ptr :: next =>
      (if pid ptr =? p
       then Entry (pid ptr) (entry_hi ptr)
                  (clear_bits (entry_lo ptr) (HPTABLE_SWRITE L))
       else ptr) :: complete_chain p next
  end.

Definition as_complete_load (as_ : Z) : M Z :=
  let p := u32 as_ in
  modify (fun st => set_hpt (map (complete_chain p) (hpt st)) st) ;;;
  tlb_flush ;;;
  ret 0.

(** [as_define_stack] returns its error code and the value stored in
    [*stackptr]. *)
Definition as_define_stack (as_ : Z) : M (Z * Z) :=
  let stackptr := USERSTACK in
  let location := u32 (USERSTACK - u32 (PAGE_SIZE * STACK_PAGE L)) in
  result <- define_memory as_ location (u32 (PAGE_SIZE * STACK_PAGE L))
              (Z.shiftl (HPTABLE_STACK_RW L) 1) ;;
  if negb (result =? 0) then ret (ENOMEM, stackptr)
  else ret (0, stackptr).

Definition as_activate : M unit :=
  as_ <- proc_getas ;;
  if as_ =? 0 then ret tt
  else tlb_flush.

Definition as_deactivate : M unit :=
  as_ <- proc_getas ;;
  if as_ =? 0 then ret tt
  else tlb_flush.

(** ** Vocabulary of the properties *)

(** The table and the state after a successful [insert_page_table_entry]. *)
Definition hpt_insert (as_ entry_hi_ entry_lo_ : Z) (st : kernel) : list chain :=
  let vpn := Z.land entry_hi_ PAGE_FRAME in
  alter (link_tail (Entry (u32 as_) vpn entry_lo_))
        (Z.to_nat (hpt_hash as_ vpn st)) (hpt st).

Definition after_kmalloc (st : kernel) : kernel :=
  Kernel (hpt st) (ram st) (tlb st) (S (kmalloc_calls st)) (kpages_calls st)
         (freed_pages st) (kfreed st) (curproc_as st).

(** All entries of the table, bucket after bucket, and those of one owner. *)
Definition entries (t : list chain) : chain := concat t.

Definition owned_by (p : Z) (c : chain) : chain :=
  filter (fun e => pid e = p) c.

(** The virtual tag [find] compares, and the frame field of an entry (0 when
    no frame is assigned). *)
Definition virtual_tag (e : hpt_entry) : Z := Z.land (entry_hi e) PAGE_FRAME.
Definition frame_of (e : hpt_entry) : Z := Z.land (entry_lo e) PAGE_FRAME.

(** At most one entry per owner and virtual tag. *)
Definition unique_binding (t : list chain) : Prop :=
  NoDup (map (fun e => (pid e, virtual_tag e)) (entries t)).

(** [t'] has every entry of [t] at the place it has in [t]. *)
Definition extends (t t' : list chain) : Prop :=
  length t' = length t /\
  forall i j e, bucket t i !! j = Some e -> bucket t' i !! j = Some e.

(** The constants of addrspace.h fit the 32-bit words they are used in, and
    the tag of a page is its page-aligned address. *)
Definition wf_layout : Prop :=
  FLAG_OFFSET L = 12 /\
  (0 <= HPTABLE_VALID L < 32) /\ (0 <= HPTABLE_GLOBAL L < 32) /\
  (0 <= HPTABLE_DIRTY L < 32) /\
  (0 <= HPTABLE_WRITE L < 2 ^ 32) /\ (0 <= HPTABLE_SWRITE L < 2 ^ 32).

(** The state after [free_kpages] was called on each address of [l]. *)
Definition after_free (l : list Z) (st : kernel) : kernel :=
  Kernel (hpt st) (ram st) (tlb st) (kmalloc_calls st) (kpages_calls st)
         (freed_pages st ++ l) (kfreed st) (curproc_as st).

(** What [as_complete_load] for owner [p] makes of an entry [e]: only the
    bits of [HPTABLE_SWRITE] change, and only in entries of [p]. *)
Definition swrite_cleared (p : Z) (e e' : hpt_entry) : Prop :=
  pid e' = pid e /\ entry_hi e' = entry_hi e /\
  (pid e = p ->
     Z.land (entry_lo e') (HPTABLE_SWRITE L) = 0 /\
     forall n, Z.testbit (HPTABLE_SWRITE L) n = false ->
               Z.testbit (entry_lo e') n = Z.testbit (entry_lo e) n) /\
  (pid e <> p -> e' = e).

(** What a call that returned may have done to the state when it only added
    entries: every old entry is in place and nothing was released. *)
Definition only_added (st st1 : kernel) : Prop :=
  extends (hpt st) (hpt st1) /\
  freed_pages st1 = freed_pages st /\ kfreed st1 = kfreed st.

(** The entries [define_pages] links, in the order of the loop. *)
Fixpoint region_entries (n : nat) (as_ start permissions : Z) : chain :=
  match n with
  | O => []
  | S n' =>
      Entry (u32 as_) (Z.land (u32 (Z.shiftl start (FLAG_OFFSET L))) PAGE_FRAME)
            (region_entry_lo permissions)
      :: region_entries n' as_ (start + 1) permissions
  end.

(** The page numbers [base .. top - 1] that [define_memory] walks. *)
Definition region_base (addr : Z) : Z := addr / PAGE_SIZE.
Definition region_top (addr memsize : Z) : Z :=
  u32 (u32 (addr + memsize) + PAGE_SIZE - 1) / PAGE_SIZE.

(** The address space has no entry yet for any page of the region. *)
Definition region_fresh (as_ addr memsize : Z) (t : list chain) : Prop :=
  forall e start, e ∈ entries t -> pid e = u32 as_ ->
                  region_base addr <= start < region_top addr memsize ->
                  virtual_tag e <> PAGE_SIZE * start.

(** The slot contents [tlb_flush] writes at index [i]. *)
Definition invalid_slot (i : nat) : Z * Z :=
  (TLBHI_INVALID (Z.of_nat i), TLBLO_INVALID).

(** An entry after [as_complete_load] of its owner. *)
Definition without_swrite (e : hpt_entry) : hpt_entry :=
  Entry (pid e) (entry_hi e) (clear_bits (entry_lo e) (HPTABLE_SWRITE L)).

(** Every entry sits in the chain of the bucket its owner and its tag hash
    to. *)
Definition well_placed (st : kernel) : Prop :=
  forall i j e, bucket (hpt st) i !! j = Some e ->
                i = Z.to_nat (hpt_hash (pid e) (virtual_tag e) st).

End Addrspace.

(** What a closed example observes of an outcome: the value returned, the
    table and the two logs of released memory. *)
Definition observe {A} (o : outcome A)
  : option (A * list chain * list Z * list Z) :=
  match o with
  | Ret a st => Some (a, hpt st, freed_pages st, kfreed st)
  | _ => None
  end.

(** ** Concrete inputs

    A layout of addrspace.h that is consistent with every use the code makes
    of its constants, allocators with fixed answers, and small tables. They
    serve the closed examples at the end of the file. *)

Definition std_layout : layout :=
  {| PAGE_BITS := 12; FLAG_OFFSET := 12;
     HPTABLE_VALID := 9; HPTABLE_GLOBAL := 8; HPTABLE_DIRTY := 10;
     HPTABLE_WRITE := 4; HPTABLE_SWRITE := 1; HPTABLE_STATEBITS := 15;
     HPTABLE_STACK_RW := 6; STACK_PAGE := 16 |}.

(** Allocators that never fail: fresh 64-byte heap blocks and fresh frames. *)
Definition never_fail : allocators :=
  {| kmalloc_ret := fun n => 0x80040040 + 64 * Z.of_nat n;
     alloc_kpages_ret := fun n => 0x80100000 + 4096 * Z.of_nat n |}.

(** A kernel heap that is exhausted. *)
Definition heap_exhausted : allocators :=
  {| kmalloc_ret := fun _ => 0;
     alloc_kpages_ret := fun n => 0x80100000 + 4096 * Z.of_nat n |}.

(** A frame allocator with one frame left. *)
Definition last_frame : allocators :=
  {| kmalloc_ret := fun n => 0x80040040 + 64 * Z.of_nat n;
     alloc_kpages_ret := fun n => match n with O => 0x80100000 | S _ => 0 end |}.

(** A frame allocator that has run out of frames. *)
Definition frames_exhausted : allocators :=
  {| kmalloc_ret := fun n => 0x80040040 + 64 * Z.of_nat n;
     alloc_kpages_ret := fun _ => 0 |}.

(** The handle of an address space. *)
Definition A0 : Z := 0x80040000.

(** The handle of a second address space. *)
Definition B0 : Z := 0x80040020.

(** The table after boot: four empty buckets. *)
Definition boot : kernel :=
  {| hpt := [[]; []; []; []]; ram := fun _ => 0; tlb := replicate NUM_TLB (0, 0);
     kmalloc_calls := 0; kpages_calls := 0; freed_pages := []; kfreed := [];
     curproc_as := 0 |}.

(** [A0] owns one page, at 0x1000, defined read-only and not yet faulted in. *)
Definition one_page : kernel :=
  set_hpt [[]; [Entry A0 0x1000 0x309]; []; []] boot.

(** [A0] owns one writable page, at 0x1000, with the frame at 0x80050000
    assigned. *)
Definition one_frame : kernel :=
  set_hpt [[]; [Entry A0 0x1000 0x8005070d]; []; []] boot.

(** ** Properties *)

Section Properties.

Variable L : layout.
Variable alloc : allocators.

(** *** The monad and the external calls *)

Lemma bind_Ret {A B} (m : M A) (k : A -> M B) st a st1 :
  m st = Ret a st1 -> bind m k st = k a st1.
Proof. intros H. unfold bind. now rewrite H. Qed.

Lemma bind_inv {A B} (m : M A) (k : A -> M B) st b st2 :
  bind m k st = Ret b st2 ->
  exists a st1, m st = Ret a st1 /\ k a st1 = Ret b st2.
Proof.
  unfold bind. destruct (m st) as [a st1| |]; intros H; try discriminate.
  now exists a, st1.
Qed.

Lemma tlb_flush_from_total n i st :
  exists t, tlb_flush_from n i st = Ret tt (set_tlb t st).
Proof.
  revert i st. induction n as [|n IH]; intros i st; simpl.
  - exists (tlb st). now destruct st.
  - unfold bind, tlb_write, modify.
    destruct (IH (S i) (set_tlb (<[i:=(TLBHI_INVALID (Z.of_nat i), TLBLO_INVALID)]> (tlb st)) st))
      as [t Ht].
    exists t. rewrite Ht. reflexivity.
Qed.

Lemma tlb_flush_total st : exists t, tlb_flush st = Ret tt (set_tlb t st).
Proof. apply tlb_flush_from_total. Qed.

(** Runs the [tlb_flush] that the goal is stuck on. *)
Ltac run_tlb_flush :=
  match goal with
  | |- context [tlb_flush ?s] =>
      let t := fresh "t" in
      let Ht := fresh "Ht" in
      destruct (tlb_flush_total s) as [t Ht]; rewrite Ht
  end.

(** *** Insertion *)

Lemma link_tail_app new (c : chain) : link_tail new c = c ++ [new].
Proof. induction c as [|e c IH]; simpl; [reflexivity | now rewrite IH]. Qed.

Lemma insert_page_table_entry_ok as_ hi lo st :
  kmalloc_ret alloc (kmalloc_calls st) <> 0 ->
  insert_page_table_entry L alloc as_ hi lo st =
    Ret true (set_hpt (hpt_insert L as_ hi lo st) (after_kmalloc st)).
Proof.
  intros Hk. unfold insert_page_table_entry, bind, get, kmalloc.
  destruct (Z.eqb_spec (kmalloc_ret alloc (kmalloc_calls st)) 0) as [E|_];
    [contradiction|].
  reflexivity.
Qed.

Lemma insert_page_table_entry_null as_ hi lo st :
  kmalloc_ret alloc (kmalloc_calls st) = 0 ->
  insert_page_table_entry L alloc as_ hi lo st = Fault.
Proof.
  intros Hk. unfold insert_page_table_entry, bind, get, kmalloc.
  now rewrite Hk.
Qed.

Lemma insert_page_table_entry_inv as_ hi lo st b st1 :
  insert_page_table_entry L alloc as_ hi lo st = Ret b st1 ->
  b = true /\ kmalloc_ret alloc (kmalloc_calls st) <> 0 /\
  st1 = set_hpt (hpt_insert L as_ hi lo st) (after_kmalloc st).
Proof.
  intros H.
  destruct (Z.eq_dec (kmalloc_ret alloc (kmalloc_calls st)) 0) as [E|E].
  - rewrite insert_page_table_entry_null in H by assumption. discriminate.
  - rewrite insert_page_table_entry_ok in H by assumption.
    injection H as <- <-. auto.
Qed.

Lemma hpt_hash_range as_ vpn st :
  hpt st <> [] -> (Z.to_nat (hpt_hash L as_ vpn st) < length (hpt st))%nat.
Proof.
  intros Hne. unfold hpt_hash, hpt_size.
  assert (0 < Z.of_nat (length (hpt st))) by (destruct (hpt st); [congruence | simpl; lia]).
  pose proof (Z.mod_pos_bound (Z.lxor (u32 as_) (Z.shiftr vpn (PAGE_BITS L)))
                (Z.of_nat (length (hpt st))) ltac:(lia)).
  lia.
Qed.

Lemma bucket_alter_eq f (t : list chain) i :
  (i < length t)%nat -> bucket (alter f i t) i = f (bucket t i).
Proof.
  intros Hi. unfold bucket. rewrite list_lookup_alter_eq.
  destruct (lookup_lt_is_Some_2 t i Hi) as [c Hc]. now rewrite Hc.
Qed.

Lemma bucket_alter_ne f (t : list chain) i j :
  i <> j -> bucket (alter f i t) j = bucket t j.
Proof. intros Hij. unfold bucket. now rewrite list_lookup_alter_ne. Qed.

Lemma bucket_Some_lt (t : list chain) i j e :
  bucket t i !! j = Some e -> (i < length t)%nat.
Proof.
  unfold bucket. intros H. destruct (t !! i) as [c|] eqn:E.
  - eapply lookup_lt_Some; eauto.
  - discriminate.
Qed.

Lemma extends_refl (t : list chain) : extends t t.
Proof. split; auto. Qed.

Lemma extends_trans (t1 t2 t3 : list chain) :
  extends t1 t2 -> extends t2 t3 -> extends t1 t3.
Proof. intros [H1 H2] [H3 H4]. split; [congruence | auto]. Qed.

Lemma extends_alter_link_tail new (t : list chain) i :
  extends t (alter (link_tail new) i t).
Proof.
  split; [apply length_alter|].
  intros i' j e He. destruct (decide (i = i')) as [<-|Hne].
  - rewrite bucket_alter_eq by (eapply bucket_Some_lt; eauto).
    rewrite link_tail_app. now apply lookup_app_l_Some.
  - now rewrite bucket_alter_ne.
Qed.

Lemma extends_hpt_insert as_ hi lo st : extends (hpt st) (hpt_insert L as_ hi lo st).
Proof. apply extends_alter_link_tail. Qed.

Lemma entries_alter_link_tail new (t : list chain) i :
  (i < length t)%nat -> entries (alter (link_tail new) i t) ≡ₚ new :: entries t.
Proof.
  unfold entries. revert i. induction t as [|c t IH]; intros i Hi; simpl in *; [lia|].
  destruct i as [|i]; simpl.
  - rewrite link_tail_app. rewrite <- (assoc_L (++)). simpl. symmetry.
    apply Permutation_middle.
  - transitivity (c ++ new :: concat t).
    + apply Permutation_app_head, IH. lia.
    + symmetry. apply Permutation_middle.
Qed.

Lemma entries_hpt_insert as_ hi lo st :
  hpt st <> [] ->
  entries (hpt_insert L as_ hi lo st)
    ≡ₚ Entry (u32 as_) (Z.land hi PAGE_FRAME) lo :: entries (hpt st).
Proof. intros Hne. apply entries_alter_link_tail, hpt_hash_range, Hne. Qed.

(** On success the new entry holds the owner, the page-aligned tag and the
    state, and is the last of its bucket's chain; the other chains are as
    they were. *)
Lemma insert_page_table_entry_links_tail as_ hi lo st :
  hpt st <> [] ->
  kmalloc_ret alloc (kmalloc_calls st) <> 0 ->
  exists st1,
    insert_page_table_entry L alloc as_ hi lo st = Ret true st1 /\
    let index := Z.to_nat (hpt_hash L as_ (Z.land hi PAGE_FRAME) st) in
    bucket (hpt st1) index
      = bucket (hpt st) index ++ [Entry (u32 as_) (Z.land hi PAGE_FRAME) lo] /\
    (forall i, i <> index -> bucket (hpt st1) i = bucket (hpt st) i) /\
    length (hpt st1) = length (hpt st).
Proof.
  intros Hne Hk. eexists. split; [now apply insert_page_table_entry_ok|]. simpl.
  unfold hpt_insert. repeat split.
  - rewrite bucket_alter_eq by now apply hpt_hash_range.
    apply link_tail_app.
  - intros i Hi. now rewrite bucket_alter_ne.
  - apply length_alter.
Qed.

(** C5: [insert_page_table_entry] does not test what [kmalloc] returned. When
    the metadata allocation fails the first store through [new] faults, and no
    call ever returns [false] (OutOfMemory), although the callers test for
    it. *)
Theorem insert_page_table_entry_never_reports_failure as_ hi lo st :
  kmalloc_ret alloc (kmalloc_calls st) = 0 ->
  insert_page_table_entry L alloc as_ hi lo st = Fault /\
  forall st1, insert_page_table_entry L alloc as_ hi lo st <> Ret false st1.
Proof.
  intros Hk. rewrite insert_page_table_entry_null by assumption.
  split; [reflexivity | discriminate].
Qed.

(** *** Destruction *)

Lemma after_free_nil st : after_free [] st = st.
Proof. destruct st. unfold after_free. simpl. now rewrite app_nil_r. Qed.

Lemma after_free_app l1 l2 st :
  after_free l2 (after_free l1 st) = after_free (l1 ++ l2) st.
Proof. unfold after_free. simpl. now rewrite <- (assoc_L (++)). Qed.

Lemma destroy_chain_spec p (c : chain) st :
  destroy_chain p c st =
    Ret (filter (fun e => pid e <> p) c)
        (after_free (map frame_of (owned_by p c)) st).
Proof.
  revert st. induction c as [|e c IH]; intros st; simpl.
  - unfold ret. now rewrite after_free_nil.
  - unfold owned_by in *. destruct (Z.eqb_spec (pid e) p) as [E|E]; simpl.
    + unfold bind, free_kpages. rewrite IH.
      rewrite filter_cons_False by tauto.
      rewrite (filter_cons_True (fun e => pid e = p)) by assumption.
      simpl. f_equal. unfold after_free. simpl. f_equal.
      now rewrite <- (assoc_L (++)).
    + unfold bind. rewrite IH. unfold ret.
      rewrite filter_cons_True by assumption.
      now rewrite (filter_cons_False (fun e => pid e = p)) by assumption.
Qed.

Lemma destroy_buckets_spec p (t : list chain) st :
  destroy_buckets p t st =
    Ret (map (filter (fun e => pid e <> p)) t)
        (after_free (map frame_of (owned_by p (entries t))) st).
Proof.
  revert st. induction t as [|c t IH]; intros st; simpl.
  - unfold ret. now rewrite after_free_nil.
  - unfold bind. rewrite destroy_chain_spec, IH. unfold ret. simpl.
    f_equal. rewrite after_free_app. unfold owned_by, entries. simpl.
    now rewrite filter_app, map_app.
Qed.

Lemma as_destroy_spec as_ st :
  exists st1,
    as_destroy as_ st = Ret tt st1 /\
    hpt st1 = map (filter (fun e => pid e <> u32 as_)) (hpt st) /\
    freed_pages st1 =
      freed_pages st ++ map frame_of (owned_by (u32 as_) (entries (hpt st))) /\
    kfreed st1 = kfreed st ++ [as_].
Proof.
  unfold as_destroy, bind, get. rewrite destroy_buckets_spec.
  unfold modify.
  run_tlb_flush.
  unfold kfree. eexists. split; [reflexivity|]. simpl. auto.
Qed.

(** C10: [as_destroy] calls [free_kpages] once for every entry the address
    space owns, in table order, on the frame field of the entry; an entry
    whose frame was never assigned makes it call [free_kpages(0)]. *)
Theorem as_destroy_frees_every_owned_entry as_ st :
  exists st1,
    as_destroy as_ st = Ret tt st1 /\
    freed_pages st1 =
      freed_pages st ++ map frame_of (owned_by (u32 as_) (entries (hpt st))) /\
    length (freed_pages st1) =
      (length (freed_pages st) + length (owned_by (u32 as_) (entries (hpt st))))%nat /\
    forall k e, owned_by (u32 as_) (entries (hpt st)) !! k = Some e ->
                frame_of e = 0 ->
                freed_pages st1 !! (length (freed_pages st) + k)%nat = Some 0.
Proof.
  destruct (as_destroy_spec as_ st) as (st1 & Hrun & _ & Hfree & _).
  exists st1. split; [assumption|]. split; [assumption|]. split.
  - rewrite Hfree, length_app, length_map. reflexivity.
  - intros k e Hk He. rewrite Hfree.
    rewrite lookup_app_r by lia.
    replace (length (freed_pages st) + k - length (freed_pages st))%nat with k by lia.
    rewrite list_lookup_fmap, Hk. simpl. now rewrite He.
Qed.

(** *** The load phase *)

Lemma clear_bits_land x m : Z.land (clear_bits x m) m = 0.
Proof.
  unfold clear_bits. apply Z.bits_inj'. intros n Hn.
  rewrite !Z.land_spec, Z.lnot_spec, Z.bits_0 by assumption.
  destruct (Z.testbit x n), (Z.testbit m n); reflexivity.
Qed.

Lemma clear_bits_other x m n :
  Z.testbit m n = false -> Z.testbit (clear_bits x m) n = Z.testbit x n.
Proof.
  intros Hm. unfold clear_bits. destruct (Z.neg_nonneg_cases n) as [Hn|Hn].
  - now rewrite !Z.testbit_neg_r.
  - rewrite Z.land_spec, Z.lnot_spec, Hm by assumption.
    apply andb_true_r.
Qed.

Lemma clear_bits_idem x m : clear_bits (clear_bits x m) m = clear_bits x m.
Proof. unfold clear_bits. now rewrite <- Z.land_assoc, Z.land_diag. Qed.

Lemma complete_chain_cleared p (c : chain) :
  Forall2 (swrite_cleared L p) c (complete_chain L p c).
Proof.
  induction c as [|e c IH]; simpl; constructor; [|assumption].
  unfold swrite_cleared. destruct (Z.eqb_spec (pid e) p) as [E|E]; simpl.
  - repeat split; try reflexivity; try contradiction.
    + apply clear_bits_land.
    + intros n Hn. now apply clear_bits_other.
  - repeat split; try reflexivity; contradiction.
Qed.

Lemma complete_chain_idem p (c : chain) :
  complete_chain L p (complete_chain L p c) = complete_chain L p c.
Proof.
  induction c as [|e c IH]; simpl; [reflexivity|]. rewrite IH. f_equal.
  destruct (Z.eqb_spec (pid e) p) as [E|E]; simpl.
  - destruct (Z.eqb_spec (pid e) p); [|contradiction].
    now rewrite clear_bits_idem.
  - destruct (Z.eqb_spec (pid e) p); [contradiction|reflexivity].
Qed.

Lemma as_complete_load_spec as_ st :
  exists st1, as_complete_load L as_ st = Ret 0 st1 /\
              hpt st1 = map (complete_chain L (u32 as_)) (hpt st).
Proof.
  unfold as_complete_load, bind, modify.
  run_tlb_flush.
  eexists. split; reflexivity.
Qed.

(** C9: [as_complete_load] returns 0 and leaves every entry in its place; in
    the entries of the address space the bits of [HPTABLE_SWRITE] are cleared
    and every other bit is as before, the entries of other address spaces are
    unchanged, and a second call leaves the table as the first one left it. *)
Theorem as_complete_load_clears_swrite as_ st :
  exists st1,
    as_complete_load L as_ st = Ret 0 st1 /\
    Forall2 (Forall2 (swrite_cleared L (u32 as_))) (hpt st) (hpt st1) /\
    exists st2, as_complete_load L as_ st1 = Ret 0 st2 /\ hpt st2 = hpt st1.
Proof.
  destruct (as_complete_load_spec as_ st) as (st1 & Hrun & Hhpt).
  exists st1. split; [assumption|]. split.
  - rewrite Hhpt. clear. induction (hpt st) as [|c t IH]; simpl; constructor.
    + apply complete_chain_cleared.
    + assumption.
  - destruct (as_complete_load_spec as_ st1) as (st2 & Hrun2 & Hhpt2).
    exists st2. split; [assumption|].
    rewrite Hhpt2, Hhpt. rewrite map_map.
    apply map_ext. intros c. apply complete_chain_idem.
Qed.

(** *** Region definition: the range check *)

Lemma define_memory_out_of_range as_ addr memsize permissions st :
  MIPS_KSEG0 < u32 (addr + memsize) ->
  define_memory L alloc as_ addr memsize permissions st = Ret EFAULT st.
Proof.
  intros H. unfold define_memory.
  destruct (Z.ltb_spec MIPS_KSEG0 (u32 (addr + memsize))); [reflexivity | lia].
Qed.

(** C3: when the end of the range lies beyond [MIPS_KSEG0], [define_memory]
    returns [EFAULT] and leaves the state as it is, but [as_define_region]
    turns every error of [define_memory] into [ENOMEM]: the caller is told
    OutOfMemory, not InvalidRange. *)
Theorem as_define_region_reports_ENOMEM_for_bad_range
    as_ vaddr memsize readable writeable executable st :
  MIPS_KSEG0 < u32 (vaddr + memsize) ->
  as_define_region L alloc as_ vaddr memsize readable writeable executable st
    = Ret ENOMEM st /\
  define_memory L alloc as_ vaddr memsize
    (Z.shiftl (Z.lor (Z.lor readable writeable) executable) 1) st
    = Ret EFAULT st /\
  ENOMEM <> EFAULT.
Proof.
  intros H. split; [|split].
  - unfold as_define_region, bind.
    now rewrite define_memory_out_of_range by assumption.
  - now apply define_memory_out_of_range.
  - discriminate.
Qed.

(** *** Duplication *)

Lemma elem_of_entries (t : list chain) e :
  e ∈ entries t <-> exists i j, bucket t i !! j = Some e.
Proof.
  unfold entries. induction t as [|c t IH]; simpl.
  - split; [intros H; now apply elem_of_nil in H|].
    intros (i & j & H). unfold bucket in H. now rewrite lookup_nil in H.
  - rewrite elem_of_app, IH. split.
    + intros [H|(i & j & H)].
      * apply list_elem_of_lookup_1 in H as [j Hj]. now exists 0%nat, j.
      * now exists (S i), j.
    + intros ([|i] & j & H).
      * left. unfold bucket in H. simpl in H. eapply list_elem_of_lookup_2; eauto.
      * right. now exists i, j.
Qed.

Lemma only_added_refl st : only_added st st.
Proof. repeat split; auto. Qed.

Lemma only_added_trans st1 st2 st3 :
  only_added st1 st2 -> only_added st2 st3 -> only_added st1 st3.
Proof.
  intros (H1 & H2 & H3) (H4 & H5 & H6). split; [|split]; try congruence.
  eapply extends_trans; eauto.
Qed.

(** The three ways the body of the inner loop can end at an entry of the old
    address space: a store through [NULL] in the insertion, the end of the
    body with one more entry in the table, or [return ENOMEM] when the frame
    allocation failed, with the table as it was. [as_destroy] is never
    reached. *)
Lemma copy_entry_cases newas ptr st :
  (copy_entry L alloc newas ptr st = Fault /\ exists n, kmalloc_ret alloc n = 0) \/
  (exists st1, copy_entry L alloc newas ptr st = Ret None st1 /\
               only_added st st1) \/
  (exists st1, copy_entry L alloc newas ptr st = Ret (Some ENOMEM) st1 /\
               frame_of ptr <> 0 /\ hpt st1 = hpt st /\ only_added st st1).
Proof.
  unfold copy_entry. fold (frame_of ptr).
  match goal with |- context [bind ?fr ?k st] => set (FR := fr); set (K := k) end.
  assert (HFR : (exists st0, FR st = Ret None st0 /\ frame_of ptr <> 0 /\
                             hpt st0 = hpt st /\ only_added st st0) \/
                (exists n st0, FR st = Ret (Some n) st0 /\ hpt st0 = hpt st /\
                               kmalloc_calls st0 = kmalloc_calls st /\
                               only_added st st0)).
  { subst FR. destruct (Z.eqb_spec (frame_of ptr) 0) as [E|E]; simpl.
    - right. exists (frame_of ptr), st. repeat split; auto.
    - unfold bind, alloc_kpages.
      destruct (Z.eqb_spec (u32 (alloc_kpages_ret alloc (kpages_calls st))) 0) as [F|F].
      + left. eexists. split; [reflexivity|]. repeat split; auto.
      + right. do 2 eexists. split; [reflexivity|]. repeat split; auto. }
  destruct HFR as [(st0 & H0 & Hf & Hh & Hadd) | (n & st0 & H0 & Hh & Hk & Hadd)];
    rewrite (bind_Ret FR K st _ _ H0); subst K; cbv beta iota.
  - right. right. exists st0. unfold ret. auto.
  -
    match goal with |- context [insert_page_table_entry L alloc ?a ?h ?l] =>
      set (hi := h); set (lo := l) end.
    destruct (Z.eq_dec (kmalloc_ret alloc (kmalloc_calls st)) 0) as [N|N].
    + left. unfold bind.
      rewrite insert_page_table_entry_null by (rewrite Hk; assumption). eauto.
    + right. left. eexists. split.
      { unfold bind.
        rewrite insert_page_table_entry_ok by (rewrite Hk; assumption).
        reflexivity. }
      eapply only_added_trans; [eassumption|].
      split; [apply (extends_hpt_insert newas hi lo st0) | split; reflexivity].
Qed.

(** Whatever the loops of [as_copy] return, they only added entries. *)
Lemma copy_loop_only_added fuel p newas i j st r st1 :
  copy_loop L alloc fuel p newas i j st = Ret r st1 ->
  only_added st st1 /\ (r = 0 \/ r = ENOMEM).
Proof.
  revert i j st. induction fuel as [|fuel IH]; intros i j st H; simpl in H;
    [discriminate|].
  unfold bind at 1 in H. unfold get in H.
  destruct (length (hpt st) <=? i)%nat.
  - injection H as <- <-. split; [apply only_added_refl | auto].
  - destruct (bucket (hpt st) i !! j) as [ptr|]; [|eauto].
    destruct (negb (pid ptr =? p)); [eauto|].
    unfold bind in H.
    destruct (copy_entry_cases newas ptr st)
      as [(Hc & _) | [(st2 & Hc & Hadd) | (st2 & Hc & _ & _ & Hadd)]];
      rewrite Hc in H.
    + discriminate.
    + apply IH in H as [H1 H2]. split; [|assumption].
      eapply only_added_trans; eauto.
    + injection H as <- <-. auto.
Qed.

(** Once the cursor is at an entry of the old address space it stays there:
    the body ends without advancing [ptr], so the loop can only leave through
    [return ENOMEM], which needs a failing frame allocation. *)
Lemma copy_loop_stuck fuel p newas i j st ptr :
  bucket (hpt st) i !! j = Some ptr -> pid ptr = p ->
  match copy_loop L alloc fuel p newas i j st with
  | Ret r st1 => r = ENOMEM /\ frame_of ptr <> 0
  | Fault => exists n, kmalloc_ret alloc n = 0
  | OutOfFuel => True
  end.
Proof.
  revert st. induction fuel as [|fuel IH]; intros st Hptr Hpid; simpl; [exact I|].
  unfold bind at 1. unfold get.
  pose proof (bucket_Some_lt _ _ _ _ Hptr) as Hi.
  destruct (Nat.leb_spec (length (hpt st)) i) as [Hle|_]; [lia|].
  rewrite Hptr. destruct (Z.eqb_spec (pid ptr) p) as [_|Hne]; [|contradiction].
  simpl. unfold bind.
  destruct (copy_entry_cases newas ptr st)
    as [(Hc & Hk) | [(st2 & Hc & Hadd) | (st2 & Hc & Hf & _ & _)]];
    rewrite Hc.
  - assumption.
  - apply IH; [|assumption]. destruct Hadd as [[_ Hext] _]. now apply Hext.
  - unfold ret. auto.
Qed.

(** The loops skip the entries of other address spaces and the empty
    buckets without touching the state, and so reach the first entry of the
    old address space at or after the cursor. *)
Lemma copy_loop_reaches fuel p newas i j st :
  (exists i' j' ptr, bucket (hpt st) i' !! j' = Some ptr /\ pid ptr = p /\
                     (i < i' \/ i = i' /\ j <= j')%nat) ->
  match copy_loop L alloc fuel p newas i j st with
  | Ret r st1 => r = ENOMEM /\
                 exists ptr, ptr ∈ entries (hpt st) /\ pid ptr = p /\ frame_of ptr <> 0
  | Fault => exists n, kmalloc_ret alloc n = 0
  | OutOfFuel => True
  end.
Proof.
  revert i j. induction fuel as [|fuel IH]; intros i j (i' & j' & e & He & Hp & Hpos);
    simpl; [exact I|].
  unfold bind at 1. unfold get.
  pose proof (bucket_Some_lt _ _ _ _ He) as Hi'.
  destruct (Nat.leb_spec (length (hpt st)) i) as [Hle|_]; [lia|].
  destruct (bucket (hpt st) i !! j) as [ptr|] eqn:Hptr.
  - destruct (Z.eqb_spec (pid ptr) p) as [Hpid|Hne]; simpl.
    + pose proof (copy_loop_stuck (S fuel) p newas i j st ptr Hptr Hpid) as H.
      simpl in H. unfold bind at 1 in H. unfold get in H.
      destruct (Nat.leb_spec (length (hpt st)) i) as [Hle|_]; [lia|].
      rewrite Hptr in H.
      destruct (Z.eqb_spec (pid ptr) p) as [_|Hne]; [|contradiction].
      simpl in H.
      destruct (bind (copy_entry L alloc newas ptr) _ st) as [r st1| |]; auto.
      destruct H as [Hr Hf]. split; [assumption|].
      exists ptr. split; [|auto]. apply elem_of_entries. eauto.
    + apply IH. exists i', j', e. repeat split; try assumption.
      destruct Hpos as [Hlt|[-> Hle]]; [auto|]. right. split; [reflexivity|].
      destruct (decide (j = j')) as [->|]; [congruence | lia].
  - apply IH. exists i', j', e. repeat split; try assumption.
    destruct Hpos as [Hlt|[-> Hle]].
    + destruct (decide (S i = i')) as [<-|]; [right; split; lia | left; lia].
    + apply lookup_ge_None in Hptr. apply lookup_lt_Some in He. lia.
Qed.

Lemma owned_by_nonempty p (c : chain) :
  owned_by p c <> [] -> exists e, e ∈ c /\ pid e = p.
Proof.
  unfold owned_by. intros H. destruct (filter _ c) as [|e l] eqn:E; [congruence|].
  exists e. assert (He : e ∈ filter (fun e => pid e = p) c) by (rewrite E; left).
  apply list_elem_of_filter in He. tauto.
Qed.

Lemma as_create_cases st :
  (kmalloc_ret alloc (kmalloc_calls st) = 0 /\
   as_create alloc st = Ret 0 (after_kmalloc st)) \/
  (kmalloc_ret alloc (kmalloc_calls st) <> 0 /\
   exists t, as_create alloc st
             = Ret (kmalloc_ret alloc (kmalloc_calls st)) (set_tlb t (after_kmalloc st))).
Proof.
  unfold as_create, bind, kmalloc.
  destruct (Z.eqb_spec (kmalloc_ret alloc (kmalloc_calls st)) 0) as [E|E].
  - left. split; [assumption | reflexivity].
  - right. split; [assumption|].
    run_tlb_flush.
    exists t. reflexivity.
Qed.

(** How [as_copy] can end when the old address space owns an entry. *)
Lemma as_copy_owner_cases fuel old st :
  owned_by (u32 old) (entries (hpt st)) <> [] ->
  (exists st1, as_copy L alloc fuel old st = Ret (ENOMEM, None) st1 /\
               (kmalloc_ret alloc (kmalloc_calls st) = 0 \/
                exists ptr, ptr ∈ entries (hpt st) /\ pid ptr = u32 old /\
                            frame_of ptr <> 0)) \/
  (as_copy L alloc fuel old st = Fault /\ exists n, kmalloc_ret alloc n = 0) \/
  as_copy L alloc fuel old st = OutOfFuel.
Proof.
  intros Hown. apply owned_by_nonempty in Hown as (e & He & Hp).
  apply elem_of_entries in He as (i & j & He).
  unfold as_copy.
  destruct (as_create_cases st) as [(K & Hc) | (K & t & Hc)];
    rewrite (bind_Ret _ _ _ _ _ Hc).
  - rewrite Z.eqb_refl. left. eexists. split; [reflexivity | auto].
  - destruct (Z.eqb_spec (kmalloc_ret alloc (kmalloc_calls st)) 0) as [|_];
      [contradiction|].
    set (st0 := set_tlb t (after_kmalloc st)).
    pose proof (copy_loop_reaches fuel (u32 old)
                  (kmalloc_ret alloc (kmalloc_calls st)) 0 0 st0) as H.
    unfold bind.
    destruct (copy_loop L alloc fuel (u32 old) _ 0 0 st0) as [r st1| |].
    + destruct H as [-> Hfr].
      { exists i, j, e. repeat split; try assumption.
        destruct i; [right; split; lia | left; lia]. }
      left. simpl. eexists. split; [reflexivity | auto].
    + right. left. split; [reflexivity|]. apply H.
      exists i, j, e. repeat split; try assumption.
      destruct i; [right; split; lia | left; lia].
    + right. right. reflexivity.
Qed.

(** C1: when the old address space owns at least one entry, [as_copy] never
    yields a copy. The inner loop does not advance [ptr] after an entry of the
    old address space, so the call returns [ENOMEM] without storing a handle,
    faults, or is still looping whatever the fuel. *)
Theorem as_copy_never_yields_copy fuel old st :
  owned_by (u32 old) (entries (hpt st)) <> [] ->
  (exists st1, as_copy L alloc fuel old st = Ret (ENOMEM, None) st1) \/
  as_copy L alloc fuel old st = Fault \/
  as_copy L alloc fuel old st = OutOfFuel.
Proof.
  intros Hown.
  destruct (as_copy_owner_cases fuel old st Hown)
    as [(st1 & H & _) | [(H & _) | H]]; eauto.
Qed.

(** When no entry of the old address space has a frame, as right after the
    regions were defined, [as_copy] cannot even return [ENOMEM] once the
    handle is allocated. *)
Lemma as_copy_unframed_cases fuel old st :
  owned_by (u32 old) (entries (hpt st)) <> [] ->
  Forall (fun e => frame_of e = 0) (owned_by (u32 old) (entries (hpt st))) ->
  kmalloc_ret alloc (kmalloc_calls st) <> 0 ->
  (as_copy L alloc fuel old st = Fault /\ exists n, kmalloc_ret alloc n = 0) \/
  as_copy L alloc fuel old st = OutOfFuel.
Proof.
  intros Hown Hall Hk.
  destruct (as_copy_owner_cases fuel old st Hown)
    as [(st1 & _ & [H | (ptr & Hin & Hp & Hf)]) | [H | H]]; auto.
  - contradiction.
  - exfalso. apply Hf. rewrite Forall_forall in Hall. apply Hall.
    unfold owned_by. apply list_elem_of_filter. auto.
Qed.

(** C2: [as_copy] does not terminate on an address space whose entries have
    no frame yet. Once the handle is allocated, no amount of fuel makes the
    call return: it is still in its inner loop, or a later [kmalloc] returned
    [NULL] and the insertion stored through it. *)
Theorem as_copy_does_not_terminate fuel old st :
  owned_by (u32 old) (entries (hpt st)) <> [] ->
  Forall (fun e => frame_of e = 0) (owned_by (u32 old) (entries (hpt st))) ->
  kmalloc_ret alloc (kmalloc_calls st) <> 0 ->
  as_copy L alloc fuel old st = OutOfFuel \/
  as_copy L alloc fuel old st = Fault.
Proof.
  intros Hown Hall Hk.
  destruct (as_copy_unframed_cases fuel old st Hown Hall Hk) as [[H _]|H]; auto.
Qed.

(** With a kernel heap that never runs out the loop runs forever. *)
Lemma as_copy_diverges fuel old st :
  owned_by (u32 old) (entries (hpt st)) <> [] ->
  Forall (fun e => frame_of e = 0) (owned_by (u32 old) (entries (hpt st))) ->
  (forall n, kmalloc_ret alloc n <> 0) ->
  as_copy L alloc fuel old st = OutOfFuel.
Proof.
  intros Hown Hall Hk.
  destruct (as_copy_unframed_cases fuel old st Hown Hall (Hk _))
    as [[_ [n Hn]]|H]; [|assumption].
  now apply Hk in Hn.
Qed.

(** Whenever [as_copy] returns, it released nothing and every entry that was
    in the table is still in its place: the entries of the old address space
    are untouched, and so are those already inserted for the new one. *)
Lemma as_copy_only_added fuel old st r st1 :
  as_copy L alloc fuel old st = Ret r st1 -> only_added st st1.
Proof.
  unfold as_copy. intros H.
  destruct (as_create_cases st) as [(K & Hc) | (K & t & Hc)];
    rewrite (bind_Ret _ _ _ _ _ Hc) in H.
  - rewrite Z.eqb_refl in H. injection H as <- <-. repeat split; auto.
  - destruct (Z.eqb_spec (kmalloc_ret alloc (kmalloc_calls st)) 0) as [|_];
      [contradiction|].
    apply bind_inv in H as (r0 & st2 & Hloop & H).
    apply copy_loop_only_added in Hloop as [Hadd _].
    assert (st1 = st2) as ->.
    { destruct (negb (r0 =? 0)); now injection H. }
    eapply only_added_trans; [|eassumption].
    repeat split; auto.
Qed.

(** *** Region definition: the entries *)

Lemma define_pages_inv n as_ start permissions st r st1 :
  hpt st <> [] ->
  define_pages L alloc n as_ start permissions st = Ret r st1 ->
  r = 0 /\
  entries (hpt st1) ≡ₚ region_entries L n as_ start permissions ++ entries (hpt st) /\
  length (hpt st1) = length (hpt st).
Proof.
  revert start st. induction n as [|n IH]; intros start st Hne H; simpl in H.
  - injection H as <- <-. auto.
  - apply bind_inv in H as (ok & st2 & Hins & H).
    apply insert_page_table_entry_inv in Hins as (-> & _ & ->). simpl in H.
    apply IH in H as (-> & Hperm & Hlen).
    + split; [reflexivity|]. simpl in Hperm, Hlen. split.
      * rewrite Hperm, entries_hpt_insert by assumption. simpl.
        symmetry. apply Permutation_middle.
      * rewrite Hlen. apply length_alter.
    + simpl. intros E. apply (f_equal length) in E.
      unfold hpt_insert in E. rewrite length_alter in E.
      destruct (hpt st); [congruence | discriminate].
Qed.

Lemma define_pages_ok n as_ start permissions st :
  (forall k, (k < n)%nat -> kmalloc_ret alloc (kmalloc_calls st + k) <> 0) ->
  exists st1, define_pages L alloc n as_ start permissions st = Ret 0 st1.
Proof.
  revert start st. induction n as [|n IH]; intros start st Hk; simpl.
  - eexists. reflexivity.
  - unfold bind. rewrite insert_page_table_entry_ok.
    + simpl. apply IH. intros k Hlt. simpl.
      replace (S (kmalloc_calls st + k)) with (kmalloc_calls st + S k)%nat by lia.
      apply Hk. lia.
    + replace (kmalloc_calls st) with (kmalloc_calls st + 0)%nat by lia.
      apply Hk. lia.
Qed.

Lemma define_pages_total n as_ start permissions st :
  (forall k, kmalloc_ret alloc k <> 0) ->
  exists st1, define_pages L alloc n as_ start permissions st = Ret 0 st1.
Proof. intros Hk. apply define_pages_ok. intros k _. apply Hk. Qed.

Lemma PAGE_FRAME_bits n :
  0 <= n -> Z.testbit PAGE_FRAME n = (12 <=? n) && (n <? 32).
Proof.
  intros Hn. change PAGE_FRAME with (Z.shiftl (Z.ones 20) 12).
  rewrite Z.shiftl_spec by assumption.
  destruct (Z.leb_spec 12 n) as [H12|H12]; simpl.
  - destruct (Z.ltb_spec n 32) as [H32|H32].
    + apply Z.ones_spec_low. lia.
    + apply Z.ones_spec_high. lia.
  - apply Z.testbit_neg_r. lia.
Qed.

(** The tag of page number [start] is its address. *)
Lemma page_tag start :
  0 <= start < 2 ^ 20 ->
  Z.land (u32 (Z.shiftl start 12)) PAGE_FRAME = PAGE_SIZE * start.
Proof.
  intros H. unfold u32, PAGE_SIZE. rewrite Z.shiftl_mul_pow2 by lia.
  rewrite Z.mod_small by lia.
  replace (4096 * start) with (start * 2 ^ 12) by lia.
  apply Z.bits_inj'. intros n Hn.
  rewrite Z.land_spec, PAGE_FRAME_bits by assumption.
  destruct (Z.leb_spec 12 n) as [H12|H12]; simpl.
  - destruct (Z.ltb_spec n 32) as [H32|H32]; [apply andb_true_r|].
    rewrite andb_false_r. symmetry.
    rewrite <- Z.shiftl_mul_pow2 by lia. rewrite Z.shiftl_spec by lia.
    destruct (Z.eq_dec start 0) as [->|Hs]; [apply Z.bits_0|].
    apply Z.bits_above_log2; [lia|].
    assert (Z.log2 start < 20) by (apply Z.log2_lt_pow2; lia). lia.
  - rewrite andb_false_r. symmetry. apply Z.mul_pow2_bits_low. lia.
Qed.

Lemma page_tag_masked start :
  0 <= start < 2 ^ 20 ->
  Z.land (Z.land (u32 (Z.shiftl start 12)) PAGE_FRAME) PAGE_FRAME
    = PAGE_SIZE * start.
Proof.
  intros H. rewrite <- Z.land_assoc, Z.land_diag. now apply page_tag.
Qed.

Lemma region_entries_spec n as_ start permissions e :
  FLAG_OFFSET L = 12 -> 0 <= start -> start + Z.of_nat n <= 2 ^ 20 ->
  e ∈ region_entries L n as_ start permissions ->
  pid e = u32 as_ /\ entry_lo e = region_entry_lo L permissions /\
  exists s, start <= s < start + Z.of_nat n /\
            entry_hi e = PAGE_SIZE * s /\ virtual_tag e = PAGE_SIZE * s.
Proof.
  intros HF. revert start. induction n as [|n IH]; intros start H0 Hn He; simpl in He.
  - now apply elem_of_nil in He.
  - apply elem_of_cons in He as [->|He].
    + unfold virtual_tag. cbn [pid entry_hi entry_lo]. rewrite HF.
      repeat split. exists start. split; [lia|].
      split; [apply page_tag | apply page_tag_masked]; lia.
    + apply IH in He as (Hp & Hlo & s & Hs & Hhi & Htag); try lia.
      repeat split; try assumption. exists s. split; [lia | auto].
Qed.

Lemma region_entries_NoDup n as_ start permissions :
  FLAG_OFFSET L = 12 -> 0 <= start -> start + Z.of_nat n <= 2 ^ 20 ->
  NoDup (map (fun e => (pid e, virtual_tag e))
             (region_entries L n as_ start permissions)).
Proof.
  intros HF. revert start. induction n as [|n IH]; intros start H0 Hn; simpl.
  - constructor.
  - apply NoDup_cons. split; [|apply IH; lia].
    intros Hin. apply list_elem_of_fmap in Hin as (e & Heq & He).
    apply region_entries_spec in He as (_ & _ & s & Hs & _ & Htag);
      [|assumption|lia|lia].
    injection Heq as _ Heq. rewrite Htag in Heq.
    unfold virtual_tag in Heq. cbn [entry_hi] in Heq.
    rewrite HF, page_tag_masked in Heq by lia.
    unfold PAGE_SIZE in Heq. lia.
Qed.

(** The page range of a region that passes the check of [define_memory]. *)
Lemma region_range addr memsize :
  0 <= addr -> u32 (addr + memsize) <= MIPS_KSEG0 ->
  0 <= region_base addr /\ region_top addr memsize <= 2 ^ 19.
Proof.
  intros H0 Hk. unfold region_base, region_top, PAGE_SIZE, MIPS_KSEG0 in *.
  assert (0 <= u32 (addr + memsize)) by (apply Z.mod_pos_bound; lia).
  split; [apply Z.div_pos; lia|].
  unfold u32 at 1. rewrite Z.mod_small by lia.
  apply Z.lt_succ_r. apply Z.div_lt_upper_bound; lia.
Qed.

Lemma define_memory_inv as_ addr memsize permissions st r st1 :
  hpt st <> [] ->
  define_memory L alloc as_ addr memsize permissions st = Ret r st1 ->
  (r = EFAULT /\ st1 = st /\ MIPS_KSEG0 < u32 (addr + memsize)) \/
  (r = 0 /\ u32 (addr + memsize) <= MIPS_KSEG0 /\
   entries (hpt st1)
     ≡ₚ region_entries L (Z.to_nat (region_top addr memsize - region_base addr))
                        as_ (region_base addr) permissions ++ entries (hpt st) /\
   length (hpt st1) = length (hpt st)).
Proof.
  intros Hne H. unfold define_memory in H.
  destruct (Z.ltb_spec MIPS_KSEG0 (u32 (addr + memsize))) as [Hk|Hk].
  - injection H as <- <-. auto.
  - apply define_pages_inv in H as (-> & Hperm & Hlen); [|assumption].
    right. auto.
Qed.

Lemma NoDup_keys_perm (c1 c2 : chain) :
  c1 ≡ₚ c2 ->
  NoDup (map (fun e => (pid e, virtual_tag e)) c2) ->
  NoDup (map (fun e => (pid e, virtual_tag e)) c1).
Proof.
  intros Hp. apply NoDup_Permutation_proper. now apply Permutation_map.
Qed.

(** C7, as amended: a region definition that covers no page for which the
    address space already has an entry keeps the binding of every owner and
    virtual tag unique, whether it inserts the pages or rejects the range. *)
Theorem as_define_region_keeps_unique
    as_ vaddr memsize readable writeable executable st :
  FLAG_OFFSET L = 12 -> hpt st <> [] -> 0 <= vaddr ->
  (forall k, kmalloc_ret alloc k <> 0) ->
  unique_binding (hpt st) ->
  region_fresh as_ vaddr memsize (hpt st) ->
  exists r st1,
    as_define_region L alloc as_ vaddr memsize readable writeable executable st
      = Ret r st1 /\
    unique_binding (hpt st1).
Proof.
  intros HF Hne H0 Hk Huniq Hfresh. unfold as_define_region.
  set (permissions := Z.shiftl (Z.lor (Z.lor readable writeable) executable) 1).
  assert (Hrun : exists r st1,
             define_memory L alloc as_ vaddr memsize permissions st = Ret r st1).
  { unfold define_memory. destruct (_ <? _); [do 2 eexists; reflexivity|].
    edestruct define_pages_total as [st1 H1]; [exact Hk|]. eauto. }
  destruct Hrun as (r & st1 & Hrun). rewrite (bind_Ret _ _ _ _ _ Hrun).
  exists (if negb (r =? 0) then ENOMEM else 0), st1.
  split; [now destruct (negb (r =? 0))|].
  apply define_memory_inv in Hrun
    as [(_ & -> & _) | (_ & Hle & Hperm & _)]; [assumption| |assumption].
  unfold unique_binding. eapply NoDup_keys_perm; [exact Hperm|].
  destruct (region_range vaddr memsize H0 Hle) as [Hb Ht].
  destruct (Z.le_gt_cases (region_top vaddr memsize) (region_base vaddr)) as [Hn|Hn].
  { replace (Z.to_nat _) with 0%nat by lia. assumption. }
  rewrite map_app. apply NoDup_app. split; [|split; [|assumption]].
  - apply region_entries_NoDup; [assumption|assumption|lia].
  - intros key Hin Hold.
    apply list_elem_of_fmap in Hin as (e & -> & He).
    apply region_entries_spec in He as (Hp & _ & s & Hs & _ & Htag);
      [|assumption|assumption|lia].
    apply list_elem_of_fmap in Hold as (e' & Heq & He').
    injection Heq as Hp' Htag'.
    apply (Hfresh e' s He'); [congruence | lia | congruence].
Qed.

Lemma as_define_region_inv as_ vaddr memsize readable writeable executable st st1 :
  as_define_region L alloc as_ vaddr memsize readable writeable executable st
    = Ret 0 st1 ->
  define_memory L alloc as_ vaddr memsize
    (Z.shiftl (Z.lor (Z.lor readable writeable) executable) 1) st = Ret 0 st1.
Proof.
  unfold as_define_region. intros H.
  apply bind_inv in H as (r & st' & Hrun & H).
  destruct (Z.eqb_spec r 0) as [->|_]; simpl in H; [|discriminate].
  now injection H as <-.
Qed.

(** Whatever the layout and the table, defining the page at 0x1000 a second
    time for the same address space leaves two entries with the same owner
    and tag: no path of [define_memory] or [insert_page_table_entry] looks
    for an entry that is already there. *)
Lemma repeated_region_not_unique as_ r1 w1 x1 r2 w2 x2 st st1 st2 :
  hpt st <> [] ->
  as_define_region L alloc as_ 0x1000 4096 r1 w1 x1 st = Ret 0 st1 ->
  as_define_region L alloc as_ 0x1000 4096 r2 w2 x2 st1 = Ret 0 st2 ->
  ~ unique_binding (hpt st2).
Proof.
  intros Hne H1 H2 Huniq.
  apply as_define_region_inv, define_memory_inv in H1
    as [(E & _) | (_ & _ & Hp1 & Hl1)]; [discriminate| |assumption].
  assert (Hne1 : hpt st1 <> []).
  { intros E. rewrite E in Hl1. destruct (hpt st); [congruence | discriminate]. }
  apply as_define_region_inv, define_memory_inv in H2
    as [(E & _) | (_ & _ & Hp2 & _)]; [discriminate| |assumption].
  unfold unique_binding in Huniq.
  apply (NoDup_keys_perm _ _ (symmetry Hp2)) in Huniq.
  rewrite Hp1 in Huniq.
  change (Z.to_nat (region_top 4096 4096 - region_base 4096)) with 1%nat in Huniq.
  cbn [region_entries app map] in Huniq.
  apply NoDup_cons in Huniq as [Hnin _]. apply Hnin. left.
Qed.

(** *** Region definition: the state bits *)

Lemma testbit_u32_high a n : 0 <= a < 2 ^ 32 -> 32 <= n -> Z.testbit a n = false.
Proof.
  intros Ha Hn. destruct (Z.eq_dec a 0) as [->|Hz]; [apply Z.bits_0|].
  apply Z.bits_above_log2; [lia|].
  assert (Z.log2 a < 32) by (apply Z.log2_lt_pow2; lia). lia.
Qed.

Lemma u32_testbit_low a n : n < 32 -> Z.testbit (u32 a) n = Z.testbit a n.
Proof. intros Hn. unfold u32. now apply Z.mod_pow2_bits_low. Qed.

Lemma bit_testbit k : 0 <= k < 32 -> Z.testbit (bit k) k = true.
Proof.
  intros Hk. unfold bit. rewrite u32_testbit_low by lia.
  rewrite Z.shiftl_spec by lia. now rewrite Z.sub_diag.
Qed.

Lemma testbit_lor_l a b n : Z.testbit a n = true -> Z.testbit (Z.lor a b) n = true.
Proof. intros H. now rewrite Z.lor_spec, H. Qed.

Lemma testbit_lor_r a b n : Z.testbit b n = true -> Z.testbit (Z.lor a b) n = true.
Proof. intros H. rewrite Z.lor_spec, H. apply orb_true_r. Qed.

Lemma land_lor_absorb a m : Z.land (Z.lor a m) m = m.
Proof.
  apply Z.bits_inj'. intros n Hn. rewrite Z.land_spec, Z.lor_spec.
  destruct (Z.testbit a n), (Z.testbit m n); reflexivity.
Qed.

(** The state bits of an entry of a region defined with write permission. *)
Lemma region_entry_lo_writable permissions :
  wf_layout L ->
  Z.land permissions (HPTABLE_WRITE L) <> 0 ->
  let lo := region_entry_lo L permissions in
  Z.land lo (HPTABLE_WRITE L) <> 0 /\
  Z.testbit lo (HPTABLE_DIRTY L) = true /\
  Z.testbit lo (HPTABLE_VALID L) = true /\
  Z.testbit lo (HPTABLE_GLOBAL L) = true /\
  Z.land lo (HPTABLE_SWRITE L) = HPTABLE_SWRITE L.
Proof.
  intros (_ & HV & HG & HD & HW & HS) Hw. unfold region_entry_lo.
  destruct (Z.eqb_spec (Z.land permissions (HPTABLE_WRITE L)) 0) as [|_];
    [contradiction|].
  cbn [negb]. cbv zeta. repeat split.
  - intros Hz. apply Hw. apply Z.bits_inj'. intros n Hn.
    rewrite Z.bits_0, Z.land_spec.
    destruct (Z.testbit (HPTABLE_WRITE L) n) eqn:Hwn; [|apply andb_false_r].
    rewrite andb_true_r.
    assert (n < 32).
    { destruct (Z.lt_ge_cases n 32) as [|Hge]; [assumption|].
      rewrite testbit_u32_high in Hwn by assumption. discriminate. }
    apply (f_equal (fun z => Z.testbit z n)) in Hz.
    rewrite Z.bits_0, Z.land_spec, Hwn, andb_true_r in Hz.
    rewrite !Z.lor_spec, u32_testbit_low in Hz by assumption.
    destruct (Z.testbit permissions n); [|reflexivity].
    rewrite orb_true_r in Hz. discriminate.
  - do 2 apply testbit_lor_l. apply testbit_lor_r. now apply bit_testbit.
  - do 3 apply testbit_lor_l. apply testbit_lor_l, testbit_lor_r.
    now apply bit_testbit.
  - do 3 apply testbit_lor_l. apply testbit_lor_r. now apply bit_testbit.
  - unfold u32 at 2. rewrite Z.mod_small by lia. apply land_lor_absorb.
Qed.

Lemma owned_by_destroyed p (t : list chain) :
  owned_by p (entries (map (filter (fun e => pid e <> p)) t)) = [].
Proof.
  unfold owned_by, entries. induction t as [|c t IH]; simpl; [reflexivity|].
  rewrite filter_app, IH, app_nil_r. clear IH.
  induction c as [|e c IH]; [reflexivity|].
  destruct (decide (pid e = p)) as [E|E].
  - now rewrite (filter_cons_False (fun e => pid e <> p)) by tauto.
  - rewrite (filter_cons_True (fun e => pid e <> p)) by assumption.
    now rewrite filter_cons_False by assumption.
Qed.

(** C6: on a table without entries of the address space, defining the region
    at 0x1000 of 8192 bytes with write permission returns 0 and leaves exactly
    two entries of the address space, with tags 0x1000 and 0x2000 and the same
    state: write permission, dirty, valid, global and the temporary-write
    override all set. [as_destroy] then leaves no entry of the address
    space. *)
Theorem define_region_round_trip as_ readable writeable executable st :
  wf_layout L -> hpt st <> [] ->
  owned_by (u32 as_) (entries (hpt st)) = [] ->
  Z.land (Z.shiftl (Z.lor (Z.lor readable writeable) executable) 1)
         (HPTABLE_WRITE L) <> 0 ->
  kmalloc_ret alloc (kmalloc_calls st) <> 0 ->
  kmalloc_ret alloc (S (kmalloc_calls st)) <> 0 ->
  exists st1 lo,
    as_define_region L alloc as_ 0x1000 8192 readable writeable executable st
      = Ret 0 st1 /\
    owned_by (u32 as_) (entries (hpt st1))
      ≡ₚ [Entry (u32 as_) 0x1000 lo; Entry (u32 as_) 0x2000 lo] /\
    (Z.land lo (HPTABLE_WRITE L) <> 0 /\
     Z.testbit lo (HPTABLE_DIRTY L) = true /\
     Z.testbit lo (HPTABLE_VALID L) = true /\
     Z.testbit lo (HPTABLE_GLOBAL L) = true /\
     Z.land lo (HPTABLE_SWRITE L) = HPTABLE_SWRITE L) /\
    exists st2, as_destroy as_ st1 = Ret tt st2 /\
                owned_by (u32 as_) (entries (hpt st2)) = [].
Proof.
  intros Hwf Hne Hnone Hw Hk0 Hk1.
  set (permissions := Z.shiftl (Z.lor (Z.lor readable writeable) executable) 1) in *.
  destruct (define_pages_ok 2 as_ 1 permissions st) as [st1 Hrun].
  { intros [|[|k]] Hlt; [| |lia].
    - now rewrite Nat.add_0_r.
    - now rewrite Nat.add_1_r. }
  exists st1, (region_entry_lo L permissions). split; [|split; [|split]].
  - unfold as_define_region. fold permissions.
    change (define_memory L alloc as_ 4096 8192 permissions)
      with (define_pages L alloc 2 as_ 1 permissions).
    now rewrite (bind_Ret _ _ _ _ _ Hrun).
  - apply define_pages_inv in Hrun as (_ & Hperm & _); [|assumption].
    unfold owned_by in *. rewrite Hperm, filter_app, Hnone, app_nil_r.
    cbn [region_entries]. destruct Hwf as (-> & _).
    change (Z.land (u32 (Z.shiftl 1 12)) PAGE_FRAME) with 4096.
    change (Z.land (u32 (Z.shiftl (1 + 1) 12)) PAGE_FRAME) with 8192.
    now rewrite !filter_cons_True, filter_nil by reflexivity.
  - now apply region_entry_lo_writable.
  - destruct (as_destroy_spec as_ st1) as (st2 & Hd & Hhpt & _).
    exists st2. split; [assumption|]. rewrite Hhpt. apply owned_by_destroyed.
Qed.

(** *** Lookup *)

Lemma find_chain_app p v (c1 c2 : chain) :
  find_chain p v (c1 ++ c2)
  = match find_chain p v c1 with
    | Some e => Some e
    | None => find_chain p v c2
    end.
Proof.
  induction c1 as [|e c1 IH]; simpl; [reflexivity|].
  now destruct ((pid e =? p) && (v =? Z.land (entry_hi e) PAGE_FRAME)).
Qed.

(** [find] returns the first entry of the bucket's chain that matches the
    owner and the tag, or none. *)
Lemma find_first_match as_ v st :
  find L as_ v st
  = head (filter (fun e => pid e = u32 as_ /\ virtual_tag e = v)
                 (bucket (hpt st) (Z.to_nat (hpt_hash L as_ v st)))).
Proof.
  unfold find. induction (bucket (hpt st) _) as [|e c IH]; simpl; [reflexivity|].
  unfold virtual_tag.
  destruct (Z.eqb_spec (pid e) (u32 as_)) as [Hp|Hp];
    destruct (Z.eqb_spec v (Z.land (entry_hi e) PAGE_FRAME)) as [Hv|Hv]; simpl.
  - now rewrite filter_cons_True by auto.
  - rewrite filter_cons_False by (intros [_ ?]; congruence). apply IH.
  - rewrite filter_cons_False by tauto. apply IH.
  - rewrite filter_cons_False by tauto. apply IH.
Qed.

Lemma hpt_hash_length as_ v st st1 :
  length (hpt st1) = length (hpt st) -> hpt_hash L as_ v st1 = hpt_hash L as_ v st.
Proof. intros H. unfold hpt_hash, hpt_size. now rewrite H. Qed.

Lemma hpt_insert_nonempty as_ hi lo st :
  hpt st <> [] -> hpt_insert L as_ hi lo st <> [].
Proof.
  intros Hne E. apply (f_equal length) in E. unfold hpt_insert in E.
  rewrite length_alter in E. destruct (hpt st); [congruence | discriminate].
Qed.

(** An insertion does not change what [find] returns for a key that is
    already bound: the new entry is linked behind every older one. *)
Lemma find_insert_stable as_ v e as2 hi2 lo2 st b st1 :
  hpt st <> [] ->
  find L as_ v st = Some e ->
  insert_page_table_entry L alloc as2 hi2 lo2 st = Ret b st1 ->
  find L as_ v st1 = Some e.
Proof.
  intros Hne Hf Hins. apply insert_page_table_entry_inv in Hins as (_ & _ & ->).
  unfold find in *. rewrite (hpt_hash_length as_ v st) by apply length_alter.
  simpl. unfold hpt_insert.
  set (i := Z.to_nat (hpt_hash L as_ v st)) in *.
  set (i2 := Z.to_nat (hpt_hash L as2 (Z.land hi2 PAGE_FRAME) st)).
  destruct (decide (i2 = i)) as [E|E].
  - rewrite E, bucket_alter_eq by now apply hpt_hash_range.
    now rewrite link_tail_app, find_chain_app, Hf.
  - now rewrite bucket_alter_ne.
Qed.

Lemma bucket_map f (t : list chain) i : bucket (map f t) i = default [] (f <$> t !! i).
Proof. unfold bucket. now rewrite <- list_lookup_fmap. Qed.

Lemma find_chain_filter_other p q v (c : chain) :
  p <> q ->
  find_chain p v (filter (fun e => pid e <> q) c) = find_chain p v c.
Proof.
  intros Hpq. induction c as [|e c IH]; [reflexivity|].
  destruct (decide (pid e = q)) as [E|E].
  - rewrite filter_cons_False by tauto. simpl.
    destruct (Z.eqb_spec (pid e) p) as [E'|_]; [congruence|]. apply IH.
  - rewrite filter_cons_True by assumption. simpl. now rewrite IH.
Qed.

Lemma find_chain_complete_other p q v (c : chain) :
  p <> q ->
  find_chain p v (complete_chain L q c) = find_chain p v c.
Proof.
  intros Hpq. induction c as [|e c IH]; [reflexivity|]. simpl.
  destruct (Z.eqb_spec (pid e) q) as [E|E]; simpl; rewrite IH.
  - destruct (Z.eqb_spec (pid e) p) as [E'|_]; [congruence | reflexivity].
  - reflexivity.
Qed.

(** Destroying another address space, or completing its load, does not
    change what [find] returns. *)
Lemma find_as_destroy_other as_ v other st st1 :
  u32 as_ <> u32 other ->
  as_destroy other st = Ret tt st1 ->
  find L as_ v st1 = find L as_ v st.
Proof.
  intros Hne Hd. destruct (as_destroy_spec other st) as (st' & Hd' & Hhpt & _).
  rewrite Hd' in Hd. injection Hd as ->.
  unfold find. rewrite (hpt_hash_length as_ v st)
    by (rewrite Hhpt; apply length_map).
  rewrite Hhpt, bucket_map. unfold bucket.
  destruct (hpt st !! _) as [c|]; simpl; [|reflexivity].
  now apply find_chain_filter_other.
Qed.

Lemma find_as_complete_load_other as_ v other st r st1 :
  u32 as_ <> u32 other ->
  as_complete_load L other st = Ret r st1 ->
  find L as_ v st1 = find L as_ v st.
Proof.
  intros Hne Hc. destruct (as_complete_load_spec other st) as (st' & Hc' & Hhpt).
  rewrite Hc' in Hc. injection Hc as _ ->.
  unfold find. rewrite (hpt_hash_length as_ v st)
    by (rewrite Hhpt; apply length_map).
  rewrite Hhpt, bucket_map. unfold bucket.
  destruct (hpt st !! _) as [c|]; simpl; [|reflexivity].
  now apply find_chain_complete_other.
Qed.

(** C8, as amended: [insert_page_table_entry] and [find] hash the owner and
    the page-aligned tag to the same bucket, and [find] returns the first
    match of that chain or none. After a successful insertion [find] returns
    the entry it returned before when the key was already bound (an older
    entry, whose state need not be [s]), and otherwise the new entry, with
    owner, tag and state as inserted. Later insertions, and the destruction or
    the completed load of another address space, do not change that. *)
Theorem find_after_insert as_ v s st :
  hpt st <> [] -> Z.land v PAGE_FRAME = v ->
  kmalloc_ret alloc (kmalloc_calls st) <> 0 ->
  exists st1,
    insert_page_table_entry L alloc as_ v s st = Ret true st1 /\
    hpt_hash L as_ v st1 = hpt_hash L as_ (Z.land v PAGE_FRAME) st /\
    find L as_ v st1
      = Some (default (Entry (u32 as_) v s) (find L as_ v st)) /\
    find L as_ v st1
      = head (filter (fun e => pid e = u32 as_ /\ virtual_tag e = v)
                     (bucket (hpt st1) (Z.to_nat (hpt_hash L as_ v st1)))) /\
    (forall as2 hi2 lo2 b st2,
       insert_page_table_entry L alloc as2 hi2 lo2 st1 = Ret b st2 ->
       find L as_ v st2 = find L as_ v st1) /\
    (forall other st2,
       u32 as_ <> u32 other -> as_destroy other st1 = Ret tt st2 ->
       find L as_ v st2 = find L as_ v st1) /\
    (forall other r st2,
       u32 as_ <> u32 other -> as_complete_load L other st1 = Ret r st2 ->
       find L as_ v st2 = find L as_ v st1).
Proof.
  intros Hne Hv Hk. eexists. split; [now apply insert_page_table_entry_ok|].
  set (st1 := set_hpt _ _).
  assert (Hhash : hpt_hash L as_ v st1 = hpt_hash L as_ v st)
    by (apply hpt_hash_length, length_alter).
  assert (Hfind : find L as_ v st1
                  = Some (default (Entry (u32 as_) v s) (find L as_ v st))).
  { unfold find. rewrite Hhash. subst st1. simpl. unfold hpt_insert.
    rewrite Hv. rewrite bucket_alter_eq by now apply hpt_hash_range.
    rewrite link_tail_app, find_chain_app.
    destruct (find_chain _ _ _) as [e|]; [reflexivity|]. simpl.
    now rewrite Hv, !Z.eqb_refl. }
  split; [now rewrite Hv|]. split; [assumption|].
  split; [apply find_first_match|]. split; [|split].
  - intros as2 hi2 lo2 b st2 Hins. rewrite Hfind.
    eapply find_insert_stable; [|exact Hfind|exact Hins].
    subst st1. simpl. now apply hpt_insert_nonempty.
  - intros other st2. apply find_as_destroy_other.
  - intros other r st2. apply find_as_complete_load_other.
Qed.

End Properties.

(** ** Closed instances *)

Lemma observe_Ret {A} (o : outcome A) a t f k :
  observe o = Some (a, t, f, k) ->
  exists st1, o = Ret a st1 /\ hpt st1 = t /\ freed_pages st1 = f /\ kfreed st1 = k.
Proof.
  destruct o as [a' st| |]; simpl; intros H; try discriminate.
  injection H as -> <- <- <-. eauto.
Qed.

(** The table [one_page] is what a read-only region definition leaves. *)
Example one_page_reachable :
  exists st, as_define_region std_layout never_fail A0 0x1000 4096 4 0 0 boot
             = Ret 0 st /\ hpt st = hpt one_page.
Proof. eexists. split; [vm_compute; reflexivity | reflexivity]. Qed.

Lemma wf_std_layout : wf_layout std_layout.
Proof. unfold wf_layout. simpl. lia. Qed.

Lemma never_fail_kmalloc k : kmalloc_ret never_fail k <> 0.
Proof. simpl. lia. Qed.

Lemma one_page_owned :
  owned_by (u32 A0) (entries (hpt one_page)) = [Entry A0 0x1000 0x309].
Proof. vm_compute. reflexivity. Qed.

Lemma one_page_unframed :
  Forall (fun e => frame_of e = 0) (owned_by (u32 A0) (entries (hpt one_page))).
Proof. rewrite one_page_owned. constructor; [reflexivity | constructor]. Qed.

Lemma as_copy_never_yields_copy_witness :
  owned_by (u32 A0) (entries (hpt one_frame)) <> [] /\
  ((exists st1, as_copy std_layout last_frame 10 A0 one_frame
                = Ret (ENOMEM, None) st1) \/
   as_copy std_layout last_frame 10 A0 one_frame = Fault \/
   as_copy std_layout last_frame 10 A0 one_frame = OutOfFuel).
Proof.
  split; [vm_compute; discriminate|].
  apply (as_copy_never_yields_copy std_layout last_frame 10 A0 one_frame).
  vm_compute. discriminate.
Defined.

Lemma as_copy_does_not_terminate_witness :
  as_copy std_layout never_fail 1000 A0 one_page = OutOfFuel \/
  as_copy std_layout never_fail 1000 A0 one_page = Fault.
Proof.
  apply (as_copy_does_not_terminate std_layout never_fail 1000 A0 one_page).
  - rewrite one_page_owned. discriminate.
  - exact one_page_unframed.
  - simpl. lia.
Defined.

(** On [one_page] with allocators that never fail, [as_copy] is still running
    after any number of steps. *)
Example as_copy_one_page_diverges fuel :
  as_copy std_layout never_fail fuel A0 one_page = OutOfFuel.
Proof.
  apply as_copy_diverges.
  - rewrite one_page_owned. discriminate.
  - exact one_page_unframed.
  - apply never_fail_kmalloc.
Qed.

Lemma as_define_region_reports_ENOMEM_for_bad_range_witness :
  MIPS_KSEG0 < u32 (0x7ffff000 + 0x2000) /\
  as_define_region std_layout never_fail A0 0x7ffff000 0x2000 4 2 0 boot
    = Ret ENOMEM boot.
Proof.
  split; [reflexivity|].
  apply (as_define_region_reports_ENOMEM_for_bad_range
           std_layout never_fail A0 0x7ffff000 0x2000 4 2 0 boot).
  reflexivity.
Defined.

(** The sum [addr + memsize] wraps in 32 bits before it is compared: a range
    that ends far beyond [MIPS_KSEG0] passes the check and a page is
    inserted. *)
Example define_memory_wraps_around :
  exists st, define_memory std_layout never_fail A0 0x1002 0xffffffff 12 boot
             = Ret 0 st /\
             hpt st = [[]; [Entry A0 0x1000 0x70d]; []; []].
Proof. eexists. split; [vm_compute; reflexivity | reflexivity]. Qed.

(** C4: with one frame left, [as_copy] of an address space that owns one page
    with a frame copies the page once and returns [ENOMEM] when the next frame
    allocation fails. The entry inserted for the new address space (handle
    0x80040040) is still in the table with its frame, nothing was passed to
    [free_kpages] and the handle was not freed. *)
Theorem as_copy_frame_failure_keeps_destination :
  exists st1,
    as_copy std_layout last_frame 10 A0 one_frame = Ret (ENOMEM, None) st1 /\
    hpt st1 = [[]; [Entry A0 0x1000 0x8005070d;
                    Entry 0x80040040 0x1000 0x8010070d]; []; []] /\
    freed_pages st1 = [] /\ kfreed st1 = [].
Proof. apply observe_Ret. vm_compute. reflexivity. Qed.

Lemma insert_page_table_entry_never_reports_failure_witness :
  kmalloc_ret heap_exhausted (kmalloc_calls boot) = 0 /\
  insert_page_table_entry std_layout heap_exhausted A0 0x1000 0x70d boot = Fault.
Proof.
  split; [reflexivity|].
  apply (insert_page_table_entry_never_reports_failure
           std_layout heap_exhausted A0 0x1000 0x70d boot).
  reflexivity.
Defined.

Lemma define_region_round_trip_witness :
  exists st1 lo,
    as_define_region std_layout never_fail A0 0x1000 8192 4 2 0 boot = Ret 0 st1 /\
    owned_by (u32 A0) (entries (hpt st1))
      ≡ₚ [Entry (u32 A0) 0x1000 lo; Entry (u32 A0) 0x2000 lo] /\
    (Z.land lo (HPTABLE_WRITE std_layout) <> 0 /\
     Z.testbit lo (HPTABLE_DIRTY std_layout) = true /\
     Z.testbit lo (HPTABLE_VALID std_layout) = true /\
     Z.testbit lo (HPTABLE_GLOBAL std_layout) = true /\
     Z.land lo (HPTABLE_SWRITE std_layout) = HPTABLE_SWRITE std_layout) /\
    exists st2, as_destroy A0 st1 = Ret tt st2 /\
                owned_by (u32 A0) (entries (hpt st2)) = [].
Proof.
  apply (define_region_round_trip std_layout never_fail A0 4 2 0 boot).
  - exact wf_std_layout.
  - discriminate.
  - reflexivity.
  - vm_compute. discriminate.
  - simpl. lia.
  - simpl. lia.
Defined.

(** C7, as stated, fails: defining the same one-page region twice leaves two
    entries with owner [A0] and tag 0x1000. *)
Lemma repeated_region_duplicates_binding :
  exists st1 st2,
    as_define_region std_layout never_fail A0 0x1000 4096 4 2 0 boot = Ret 0 st1 /\
    as_define_region std_layout never_fail A0 0x1000 4096 4 2 0 st1 = Ret 0 st2 /\
    hpt st2 = [[]; [Entry A0 0x1000 0x70d; Entry A0 0x1000 0x70d]; []; []] /\
    ~ unique_binding (hpt st2).
Proof.
  do 2 eexists. split; [vm_compute; reflexivity|].
  split; [vm_compute; reflexivity|]. split; [reflexivity|].
  intros H. apply NoDup_cons in H as [Hnin _]. apply Hnin. left.
Qed.

Lemma as_define_region_keeps_unique_witness :
  exists r st1,
    as_define_region std_layout never_fail A0 0x2000 8192 4 2 0 one_frame
      = Ret r st1 /\
    unique_binding (hpt st1).
Proof.
  apply (as_define_region_keeps_unique std_layout never_fail A0 0x2000 8192 4 2 0).
  - reflexivity.
  - discriminate.
  - lia.
  - exact never_fail_kmalloc.
  - unfold unique_binding. vm_compute. repeat constructor.
    intros H. now apply elem_of_nil in H.
  - intros e start He Hp Hrange.
    apply elem_of_cons in He as [->|He]; [|now apply elem_of_nil in He].
    change (region_base 0x2000) with 2 in Hrange.
    change (region_top 0x2000 8192) with 4 in Hrange.
    change (virtual_tag (Entry A0 0x1000 0x8005070d)) with 4096.
    unfold PAGE_SIZE. lia.
Defined.

(** C8, as stated, fails: when [A0] already has an entry for 0x1000, a second
    insertion for the same page with another state succeeds, and [find] still
    returns the older entry with the older state. *)
Lemma find_returns_older_entry :
  exists st1,
    insert_page_table_entry std_layout never_fail A0 0x1000 0x70d one_page
      = Ret true st1 /\
    find std_layout A0 0x1000 st1 = Some (Entry A0 0x1000 0x309) /\
    0x309 <> 0x70d.
Proof.
  eexists. split; [vm_compute; reflexivity|]. split; [reflexivity | discriminate].
Qed.

Lemma find_after_insert_witness :
  exists st1,
    insert_page_table_entry std_layout never_fail A0 0x2000 0x70d one_page
      = Ret true st1 /\
    find std_layout A0 0x2000 st1 = Some (Entry (u32 A0) 0x2000 0x70d).
Proof.
  destruct (find_after_insert std_layout never_fail A0 0x2000 0x70d one_page)
    as (st1 & Hins & _ & Hfind & _).
  - discriminate.
  - reflexivity.
  - simpl. lia.
  - exists st1. split; [exact Hins | exact Hfind].
Defined.

(** ** Further properties of the operations *)

Section Coverage.

Variable L : layout.
Variable alloc : allocators.

(** *** The translation cache *)

Lemma tlb_flush_from_slots n i st :
  exists t,
    tlb_flush_from n i st = Ret tt (set_tlb t st) /\
    length t = length (tlb st) /\
    forall k, t !! k = if decide (i <= k < i + n /\ k < length (tlb st))%nat
                       then Some (invalid_slot k) else tlb st !! k.
Proof.
  revert i st. induction n as [|n IH]; intros i st; simpl.
  - exists (tlb st). split; [now destruct st|]. split; [reflexivity|].
    intros k. destruct (decide _) as [[? _]|_]; [lia | reflexivity].
  - unfold bind, tlb_write, modify.
    destruct (IH (S i) (set_tlb (<[i:=invalid_slot i]> (tlb st)) st))
      as (t & Hrun & Hlen & Hslots).
    exists t. unfold invalid_slot in Hrun at 1. rewrite Hrun.
    simpl in Hlen, Hslots. rewrite length_insert in Hlen, Hslots.
    split; [reflexivity|]. split; [assumption|].
    intros k. rewrite Hslots, list_lookup_insert.
    repeat destruct (decide _); try reflexivity; try lia.
    destruct a as [-> _]. reflexivity.
Qed.

Lemma tlb_flush_slots st :
  exists t,
    tlb_flush st = Ret tt (set_tlb t st) /\
    length t = length (tlb st) /\
    forall k, (k < length (tlb st))%nat ->
              t !! k = if decide (k < NUM_TLB)%nat
                       then Some (invalid_slot k) else tlb st !! k.
Proof.
  destruct (tlb_flush_from_slots NUM_TLB 0 st) as (t & Hrun & Hlen & Hslots).
  exists t. split; [exact Hrun|]. split; [assumption|].
  intros k Hk. rewrite Hslots.
  repeat destruct (decide _); try reflexivity; lia.
Qed.

(** X1: [tlb_flush] returns with every slot below [NUM_TLB] holding the
    invalid entry of its index, whatever the slot held before; the number of
    slots, the page table and the logs are as they were. *)
Theorem tlb_flush_invalidates_every_slot st :
  exists st1,
    tlb_flush st = Ret tt st1 /\
    hpt st1 = hpt st /\ freed_pages st1 = freed_pages st /\
    kfreed st1 = kfreed st /\
    length (tlb st1) = length (tlb st) /\
    forall k, (k < length (tlb st))%nat ->
              tlb st1 !! k = if decide (k < NUM_TLB)%nat
                             then Some (invalid_slot k) else tlb st !! k.
Proof.
  destruct (tlb_flush_slots st) as (t & Hrun & Hlen & Hslots).
  exists (set_tlb t st). split; [exact Hrun|]. simpl. repeat split; assumption.
Qed.

(** X2: [as_activate] never changes the page table. When the current
    process has no address space it changes nothing at all; otherwise every
    slot of the translation cache below [NUM_TLB] is invalid afterwards.
    [as_deactivate] is the same function. *)
Theorem as_activate_only_flushes st :
  as_deactivate st = as_activate st /\
  exists st1,
    as_activate st = Ret tt st1 /\
    hpt st1 = hpt st /\
    (curproc_as st = 0 -> st1 = st) /\
    (curproc_as st <> 0 ->
     forall k, (k < NUM_TLB)%nat -> (k < length (tlb st))%nat ->
               tlb st1 !! k = Some (invalid_slot k)).
Proof.
  split; [reflexivity|]. unfold as_activate, bind, proc_getas.
  destruct (Z.eqb_spec (curproc_as st) 0) as [E|E].
  - exists st. repeat split; auto. contradiction.
  - destruct (tlb_flush_slots st) as (t & Hrun & _ & Hslots).
    exists (set_tlb t st). split; [exact Hrun|]. split; [reflexivity|].
    split; [contradiction|]. intros _ k Hk Hlen. rewrite Hslots by assumption.
    destruct (decide _); [reflexivity | lia].
Qed.

(** *** Creation and destruction *)

(** X3: [as_create] returns exactly what [kmalloc] returned and never
    touches the page table or the logs. On [NULL] the translation cache is
    left as it was; otherwise every slot below [NUM_TLB] is invalid. *)
Theorem as_create_returns_kmalloc st :
  exists st1,
    as_create alloc st = Ret (kmalloc_ret alloc (kmalloc_calls st)) st1 /\
    hpt st1 = hpt st /\ freed_pages st1 = freed_pages st /\
    kfreed st1 = kfreed st /\
    kmalloc_calls st1 = S (kmalloc_calls st) /\
    (kmalloc_ret alloc (kmalloc_calls st) = 0 -> tlb st1 = tlb st) /\
    (kmalloc_ret alloc (kmalloc_calls st) <> 0 ->
     forall k, (k < NUM_TLB)%nat -> (k < length (tlb st))%nat ->
               tlb st1 !! k = Some (invalid_slot k)).
Proof.
  unfold as_create, bind, kmalloc.
  destruct (Z.eqb_spec (kmalloc_ret alloc (kmalloc_calls st)) 0) as [E|E].
  - rewrite E. eexists. split; [reflexivity|]. simpl.
    repeat split; auto. contradiction.
  - destruct (tlb_flush_slots (after_kmalloc st)) as (t & Hrun & _ & Hslots).
    unfold after_kmalloc in Hrun. rewrite Hrun.
    eexists. split; [reflexivity|]. simpl. repeat split; try contradiction.
    intros _ k Hk Hlen. rewrite Hslots by assumption.
    destruct (decide _); [reflexivity | lia].
Qed.

Lemma find_chain_None p v (c : chain) :
  find_chain p v c = None <->
  forall e, e ∈ c -> ~ (pid e = p /\ virtual_tag e = v).
Proof.
  unfold virtual_tag. induction c as [|e c IH]; simpl.
  - split; [|reflexivity]. intros _ e He. now apply elem_of_nil in He.
  - destruct (Z.eqb_spec (pid e) p) as [Hp|Hp];
      destruct (Z.eqb_spec v (Z.land (entry_hi e) PAGE_FRAME)) as [Hv|Hv]; simpl.
    + split; [discriminate|]. intros H. exfalso. apply (H e); [left | auto].
    + rewrite IH. split; intros H e' He'.
      * apply elem_of_cons in He' as [->|He']; [intros [_ ?]; congruence | auto].
      * apply H. now right.
    + rewrite IH. split; intros H e' He'.
      * apply elem_of_cons in He' as [->|He']; [tauto | auto].
      * apply H. now right.
    + rewrite IH. split; intros H e' He'.
      * apply elem_of_cons in He' as [->|He']; [tauto | auto].
      * apply H. now right.
Qed.

Lemma find_chain_Some p v (c : chain) e :
  find_chain p v c = Some e -> e ∈ c /\ pid e = p /\ virtual_tag e = v.
Proof.
  unfold virtual_tag. induction c as [|e' c IH]; simpl; [discriminate|].
  destruct (Z.eqb_spec (pid e') p) as [Hp|Hp];
    destruct (Z.eqb_spec v (Z.land (entry_hi e') PAGE_FRAME)) as [Hv|Hv]; simpl;
    intros H.
  - injection H as <-. split; [left | auto].
  - apply IH in H as (? & ? & ?). split; [now right | auto].
  - apply IH in H as (? & ? & ?). split; [now right | auto].
  - apply IH in H as (? & ? & ?). split; [now right | auto].
Qed.

Lemma owned_by_filter_other p q (t : list chain) :
  p <> q ->
  owned_by p (entries (map (filter (fun e => pid e <> q)) t))
  = owned_by p (entries t).
Proof.
  intros Hpq. unfold owned_by, entries.
  induction t as [|c t IH]; simpl; [reflexivity|].
  rewrite !filter_app, IH. f_equal. clear IH.
  induction c as [|e c IH]; [reflexivity|].
  destruct (decide (pid e = q)) as [E|E].
  - rewrite (filter_cons_False (fun e => pid e <> q)) by tauto.
    rewrite (filter_cons_False (fun e => pid e = p)) by congruence. exact IH.
  - rewrite (filter_cons_True (fun e => pid e <> q)) by assumption.
    destruct (decide (pid e = p)) as [E'|E'].
    + rewrite !(filter_cons_True (fun e => pid e = p)) by assumption.
      now rewrite IH.
    + now rewrite !(filter_cons_False (fun e => pid e = p)) by assumption.
Qed.

(** X4: [as_destroy] removes exactly the entries of the address space. Each
    chain keeps its other entries in their order, so afterwards [find]
    returns none for every tag of the destroyed address space and what it
    returned before for every other address space. *)
Theorem as_destroy_removes_exactly as_ st :
  exists st1,
    as_destroy as_ st = Ret tt st1 /\
    hpt st1 = map (filter (fun e => pid e <> u32 as_)) (hpt st) /\
    (forall v, find L as_ v st1 = None) /\
    (forall other v, u32 other <> u32 as_ ->
                     find L other v st1 = find L other v st) /\
    (forall p, p <> u32 as_ ->
               owned_by p (entries (hpt st1)) = owned_by p (entries (hpt st))).
Proof.
  destruct (as_destroy_spec as_ st) as (st1 & Hrun & Hhpt & _).
  exists st1. split; [assumption|]. split; [assumption|]. split; [|split].
  - intros v. unfold find. rewrite Hhpt, bucket_map.
    destruct (hpt st !! _) as [c|]; simpl; [|reflexivity].
    apply find_chain_None. intros e He [Hp _].
    apply list_elem_of_filter in He as [Hne _]. contradiction.
  - intros other v Hne. eapply find_as_destroy_other; eassumption.
  - intros p Hp. rewrite Hhpt. now apply owned_by_filter_other.
Qed.

Lemma filter_none_owned p (t : list chain) :
  owned_by p (entries t) = [] -> map (filter (fun e => pid e <> p)) t = t.
Proof.
  unfold owned_by, entries. induction t as [|c t IH]; simpl; [reflexivity|].
  rewrite filter_app. intros H. apply app_eq_nil in H as [Hc Ht].
  rewrite IH by assumption. f_equal. clear IH Ht.
  induction c as [|e c IH]; [reflexivity|].
  destruct (decide (pid e = p)) as [E|E].
  - rewrite filter_cons_True in Hc by assumption. discriminate.
  - rewrite filter_cons_False in Hc by assumption.
    rewrite filter_cons_True by assumption. now rewrite IH.
Qed.

(** X5: [as_destroy] of an address space that owns no entry, such as one
    that was just created or already emptied, leaves the table as it is and
    releases no frame; it still frees the handle. *)
Theorem as_destroy_nothing_owned as_ st :
  owned_by (u32 as_) (entries (hpt st)) = [] ->
  exists st1,
    as_destroy as_ st = Ret tt st1 /\
    hpt st1 = hpt st /\
    freed_pages st1 = freed_pages st /\
    kfreed st1 = kfreed st ++ [as_].
Proof.
  intros Hnone. destruct (as_destroy_spec as_ st) as (st1 & Hrun & Hhpt & Hfree & Hk).
  exists st1. split; [assumption|]. split; [|split; [|assumption]].
  - rewrite Hhpt. now apply filter_none_owned.
  - rewrite Hfree, Hnone. apply app_nil_r.
Qed.

(** *** Invariants of the table *)

Lemma entries_map_filter (P : hpt_entry -> Prop) `{forall e, Decision (P e)}
    (t : list chain) :
  entries (map (filter P) t) = filter P (entries t).
Proof.
  unfold entries. induction t as [|c t IH]; simpl; [reflexivity|].
  now rewrite filter_app, IH.
Qed.

Lemma NoDup_keys_filter (P : hpt_entry -> Prop) `{forall e, Decision (P e)}
    (c : chain) :
  NoDup (map (fun e => (pid e, virtual_tag e)) c) ->
  NoDup (map (fun e => (pid e, virtual_tag e)) (filter P c)).
Proof.
  induction c as [|e c IH]; simpl; [intros _; constructor|].
  intros Hnd. apply NoDup_cons in Hnd as [Hnin Hnd].
  destruct (decide (P e)) as [HP|HP].
  - rewrite filter_cons_True by assumption. simpl. apply NoDup_cons.
    split; [|auto]. intros Hin. apply Hnin.
    apply list_elem_of_fmap in Hin as (e' & Heq & He').
    apply list_elem_of_filter in He' as [_ He'].
    apply list_elem_of_fmap. eauto.
  - rewrite filter_cons_False by assumption. auto.
Qed.

Lemma complete_chain_fmap p (c : chain) :
  complete_chain L p c
  = (fun e => if pid e =? p then without_swrite L e else e) <$> c.
Proof. induction c as [|e c IH]; simpl; [reflexivity | now rewrite IH]. Qed.

Lemma complete_chain_keys p (t : list chain) :
  map (fun e => (pid e, virtual_tag e)) (entries (map (complete_chain L p) t))
  = map (fun e => (pid e, virtual_tag e)) (entries t).
Proof.
  unfold entries. induction t as [|c t IH]; simpl; [reflexivity|].
  rewrite !map_app, IH. f_equal. clear IH.
  induction c as [|e c IH]; simpl; [reflexivity|]. rewrite IH. f_equal.
  now destruct (pid e =? p).
Qed.

(** X6: destroying an address space and completing a load keep the binding
    of every owner and virtual tag unique. *)
Theorem unique_binding_kept as_ st :
  unique_binding (hpt st) ->
  exists st1 st2,
    as_destroy as_ st = Ret tt st1 /\ unique_binding (hpt st1) /\
    as_complete_load L as_ st = Ret 0 st2 /\ unique_binding (hpt st2).
Proof.
  intros Huniq.
  destruct (as_destroy_spec as_ st) as (st1 & Hd & Hh1 & _).
  destruct (as_complete_load_spec L as_ st) as (st2 & Hc & Hh2).
  exists st1, st2. unfold unique_binding in *. repeat split; try assumption.
  - rewrite Hh1, entries_map_filter. now apply NoDup_keys_filter.
  - now rewrite Hh2, complete_chain_keys.
Qed.

Lemma hpt_hash_u32 as_ v st :
  hpt_hash L (u32 as_) v st = hpt_hash L as_ v st.
Proof.
  unfold hpt_hash. f_equal. f_equal. unfold u32.
  apply Z.mod_mod. discriminate.
Qed.

(** X7: on a table where every entry sits in the bucket its owner and tag
    hash to, [find] misses nothing: it returns none exactly when no chain of
    the table holds an entry with that owner and tag. *)
Theorem find_none_iff_absent as_ v st :
  well_placed L st ->
  find L as_ v st = None <->
  forall e, e ∈ entries (hpt st) -> ~ (pid e = u32 as_ /\ virtual_tag e = v).
Proof.
  intros Hwp. unfold find. rewrite find_chain_None. split.
  - intros H e He [Hp Hv]. apply elem_of_entries in He as (i & j & He).
    pose proof (Hwp i j e He) as Hi.
    rewrite Hp, Hv, hpt_hash_u32 in Hi. subst i.
    apply (H e); [|auto]. eapply list_elem_of_lookup_2; eauto.
  - intros H e He. apply H. apply list_elem_of_lookup_1 in He as [j Hj].
    apply elem_of_entries. eauto.
Qed.

(** *** Insertion and region definition *)

(** What [find] returns after an insertion, for any key. *)
Lemma find_insert_general as_ v as2 hi2 lo2 st b st1 :
  hpt st <> [] ->
  insert_page_table_entry L alloc as2 hi2 lo2 st = Ret b st1 ->
  find L as_ v st1
  = match find L as_ v st with
    | Some e => Some e
    | None => if decide (u32 as2 = u32 as_ /\ Z.land hi2 PAGE_FRAME = v)
              then Some (Entry (u32 as2) (Z.land hi2 PAGE_FRAME) lo2)
              else None
    end.
Proof.
  intros Hne Hins.
  apply insert_page_table_entry_inv in Hins as (_ & _ & ->).
  unfold find. rewrite (hpt_hash_length L as_ v st) by apply length_alter.
  simpl. unfold hpt_insert.
  set (i := Z.to_nat (hpt_hash L as_ v st)).
  set (i2 := Z.to_nat (hpt_hash L as2 (Z.land hi2 PAGE_FRAME) st)).
  destruct (decide (i2 = i)) as [E|E].
  - rewrite E, bucket_alter_eq by now apply hpt_hash_range.
    rewrite link_tail_app, find_chain_app.
    destruct (find_chain _ _ (bucket _ _)); [reflexivity|]. simpl.
    rewrite <- Z.land_assoc, Z.land_diag.
    destruct (Z.eqb_spec (u32 as2) (u32 as_)) as [Hp|Hp];
      destruct (Z.eqb_spec v (Z.land hi2 PAGE_FRAME)) as [Hv|Hv]; simpl;
      destruct (decide _) as [[? ?]|Hn]; try reflexivity; try congruence.
    exfalso. apply Hn. auto.
  - rewrite bucket_alter_ne by assumption.
    destruct (find_chain _ _ _); [reflexivity|].
    destruct (decide _) as [[Hp Hv]|_]; [|reflexivity].
    exfalso. apply E. subst i i2. unfold hpt_hash. now rewrite Hp, Hv.
Qed.

(** A property of the state that every insertion for [as_] keeps is kept by
    the loop of [define_memory] and by [as_define_region]. *)
Lemma define_pages_invariant (P : kernel -> Prop) n as_ start permissions st r st1 :
  (forall s hi lo b s', P s -> insert_page_table_entry L alloc as_ hi lo s = Ret b s' ->
                        P s') ->
  P st ->
  define_pages L alloc n as_ start permissions st = Ret r st1 -> P st1.
Proof.
  intros Hstep. revert start st. induction n as [|n IH]; intros start st HP H;
    simpl in H.
  - now injection H as _ <-.
  - apply bind_inv in H as (ok & st2 & Hins & H).
    pose proof (Hstep _ _ _ _ _ HP Hins) as HP2.
    apply insert_page_table_entry_inv in Hins as (-> & _ & _). simpl in H.
    eapply IH; eauto.
Qed.

Lemma as_define_region_invariant (P : kernel -> Prop)
    as_ vaddr memsize readable writeable executable st r st1 :
  (forall s hi lo b s', P s -> insert_page_table_entry L alloc as_ hi lo s = Ret b s' ->
                        P s') ->
  P st ->
  as_define_region L alloc as_ vaddr memsize readable writeable executable st
    = Ret r st1 ->
  P st1.
Proof.
  intros Hstep HP H. unfold as_define_region in H.
  apply bind_inv in H as (r0 & st2 & Hrun & H).
  assert (st1 = st2) as -> by (destruct (negb (r0 =? 0)); now injection H).
  unfold define_memory in Hrun. destruct (_ <? _).
  - now injection Hrun as _ <-.
  - eapply define_pages_invariant; eauto.
Qed.

Lemma insert_nonempty as_ hi lo st b st1 :
  hpt st <> [] ->
  insert_page_table_entry L alloc as_ hi lo st = Ret b st1 -> hpt st1 <> [].
Proof.
  intros Hne Hins. apply insert_page_table_entry_inv in Hins as (_ & _ & ->).
  simpl. now apply hpt_insert_nonempty.
Qed.

(** X8: a region definition for one address space, whether it succeeds or
    is rejected, does not change what [find] returns for any tag of another
    address space. *)
Theorem as_define_region_isolated
    as_ v other vaddr memsize readable writeable executable st r st1 :
  hpt st <> [] -> u32 other <> u32 as_ ->
  as_define_region L alloc other vaddr memsize readable writeable executable st
    = Ret r st1 ->
  find L as_ v st1 = find L as_ v st.
Proof.
  intros Hne Hother Hrun.
  apply (as_define_region_invariant
           (fun s => hpt s <> [] /\ find L as_ v s = find L as_ v st))
    in Hrun; [tauto| |auto].
  intros s hi lo b s' [Hs Hf] Hins. split; [eapply insert_nonempty; eauto|].
  rewrite (find_insert_general as_ v other hi lo s b s' Hs Hins), Hf.
  destruct (find L as_ v st); [reflexivity|].
  destruct (decide _) as [[? _]|_]; [contradiction | reflexivity].
Qed.

Lemma well_placed_insert as_ hi lo st b st1 :
  hpt st <> [] -> well_placed L st ->
  insert_page_table_entry L alloc as_ hi lo st = Ret b st1 ->
  well_placed L st1.
Proof.
  intros Hne Hwp Hins.
  apply insert_page_table_entry_inv in Hins as (_ & _ & ->).
  intros i j e He.
  rewrite (hpt_hash_length L (pid e) (virtual_tag e) st) by apply length_alter.
  simpl in He. unfold hpt_insert in He.
  set (i2 := Z.to_nat (hpt_hash L as_ (Z.land hi PAGE_FRAME) st)) in *.
  destruct (decide (i2 = i)) as [E|E].
  - rewrite E, bucket_alter_eq, link_tail_app in He
      by (rewrite <- E; now apply hpt_hash_range).
    apply lookup_app_Some in He as [He|[_ He]]; [now apply (Hwp i j)|].
    apply list_lookup_singleton_Some in He as [_ <-].
    unfold virtual_tag. cbn [pid entry_hi].
    rewrite <- Z.land_assoc, Z.land_diag, hpt_hash_u32. now rewrite <- E.
  - rewrite bucket_alter_ne in He by assumption. now apply (Hwp i j).
Qed.

(** X9: the placement of every entry in the bucket its owner and tag hash
    to is kept by [as_destroy], by [as_complete_load] and by every region
    definition that returns. *)
Theorem well_placed_kept as_ vaddr memsize readable writeable executable st :
  hpt st <> [] -> well_placed L st ->
  (exists st1, as_destroy as_ st = Ret tt st1 /\ well_placed L st1) /\
  (exists st2, as_complete_load L as_ st = Ret 0 st2 /\ well_placed L st2) /\
  (forall r st3,
     as_define_region L alloc as_ vaddr memsize readable writeable executable st
       = Ret r st3 ->
     well_placed L st3).
Proof.
  intros Hne Hwp. split; [|split].
  - destruct (as_destroy_spec as_ st) as (st1 & Hd & Hh & _).
    exists st1. split; [assumption|]. intros i j e He.
    rewrite (hpt_hash_length L _ _ st) by (rewrite Hh; apply length_map).
    rewrite Hh, bucket_map in He.
    destruct (hpt st !! i) as [c|] eqn:Hc; simpl in He;
      [|now rewrite lookup_nil in He].
    apply list_elem_of_lookup_2, list_elem_of_filter in He as [_ He].
    apply list_elem_of_lookup_1 in He as [j' Hj'].
    apply (Hwp i j'). unfold bucket. now rewrite Hc.
  - destruct (as_complete_load_spec L as_ st) as (st2 & Hc & Hh).
    exists st2. split; [assumption|]. intros i j e He.
    rewrite (hpt_hash_length L _ _ st) by (rewrite Hh; apply length_map).
    rewrite Hh, bucket_map in He.
    destruct (hpt st !! i) as [c|] eqn:Hci; simpl in He;
      [|now rewrite lookup_nil in He].
    rewrite complete_chain_fmap, list_lookup_fmap in He.
    destruct (c !! j) as [e0|] eqn:Hj; [|discriminate].
    injection He as <-.
    assert (Hi : i = Z.to_nat (hpt_hash L (pid e0) (virtual_tag e0) st))
      by (apply (Hwp i j); unfold bucket; now rewrite Hci).
    now destruct (pid e0 =? u32 as_).
  - intros r st3 Hrun.
    apply (as_define_region_invariant
             (fun s => hpt s <> [] /\ well_placed L s)) in Hrun; [tauto| |auto].
    intros s hi lo b s' [Hs Hw] Hins.
    split; [eapply insert_nonempty | eapply well_placed_insert]; eauto.
Qed.

Lemma find_None_fresh as_ v st :
  (forall e, e ∈ entries (hpt st) -> pid e = u32 as_ -> virtual_tag e <> v) ->
  find L as_ v st = None.
Proof.
  intros Hfresh. unfold find. apply find_chain_None. intros e He [Hp Hv].
  apply (Hfresh e); [|assumption|assumption].
  apply list_elem_of_lookup_1 in He as [j Hj]. apply elem_of_entries. eauto.
Qed.

Lemma define_pages_found n as_ start permissions st :
  FLAG_OFFSET L = 12 -> hpt st <> [] ->
  0 <= start -> start + Z.of_nat n <= 2 ^ 20 ->
  (forall k, kmalloc_ret alloc k <> 0) ->
  (forall s, start <= s < start + Z.of_nat n ->
             find L as_ (PAGE_SIZE * s) st = None) ->
  exists st1,
    define_pages L alloc n as_ start permissions st = Ret 0 st1 /\
    (forall s, start <= s < start + Z.of_nat n ->
               find L as_ (PAGE_SIZE * s) st1
               = Some (Entry (u32 as_) (PAGE_SIZE * s)
                             (region_entry_lo L permissions))) /\
    (forall a v e, find L a v st = Some e -> find L a v st1 = Some e).
Proof.
  intros HF. revert start st.
  induction n as [|n IH]; intros start st Hne H0 Hn Hk Hnone.
  - exists st. split; [reflexivity|]. split; [intros s Hs; lia | auto].
  - simpl. unfold bind.
    rewrite insert_page_table_entry_ok by apply Hk.
    set (st2 := set_hpt _ _).
    assert (Hins : insert_page_table_entry L alloc as_
                     (u32 (Z.shiftl start (FLAG_OFFSET L)))
                     (region_entry_lo L permissions) st = Ret true st2)
      by (apply insert_page_table_entry_ok, Hk).
    assert (Htag : Z.land (u32 (Z.shiftl start (FLAG_OFFSET L))) PAGE_FRAME
                   = PAGE_SIZE * start) by (rewrite HF; apply page_tag; lia).
    assert (Hfind2 : forall a v,
               find L a v st2
               = match find L a v st with
                 | Some e => Some e
                 | None => if decide (u32 as_ = u32 a /\ PAGE_SIZE * start = v)
                           then Some (Entry (u32 as_) (PAGE_SIZE * start)
                                            (region_entry_lo L permissions))
                           else None
                 end).
    { intros a v. rewrite (find_insert_general a v _ _ _ _ _ _ Hne Hins).
      now rewrite Htag. }
    simpl. destruct (IH (start + 1) st2) as (st1 & Hrun & Hfound & Hstable).
    + eapply insert_nonempty; eauto.
    + lia.
    + lia.
    + exact Hk.
    + intros s Hs. rewrite Hfind2, Hnone by lia.
      destruct (decide _) as [[_ E]|_]; [|reflexivity].
      unfold PAGE_SIZE in E. lia.
    + exists st1. split; [exact Hrun|]. split.
      * intros s Hs. destruct (Z.eq_dec s start) as [->|Hs'].
        -- apply Hstable. rewrite Hfind2, Hnone by lia.
           destruct (decide _) as [_|Hn']; [reflexivity|].
           exfalso. apply Hn'. auto.
        -- apply Hfound. lia.
      * intros a v e He. apply Hstable. now rewrite Hfind2, He.
Qed.

(** X10: after a region definition that covers no page the address space
    already has, every page of the region can be looked up: [find] returns
    the entry of the address space with the page's address as tag and the
    state the definition built from the permissions. *)
Theorem as_define_region_pages_found
    as_ vaddr memsize readable writeable executable st :
  FLAG_OFFSET L = 12 -> hpt st <> [] -> 0 <= vaddr ->
  u32 (vaddr + memsize) <= MIPS_KSEG0 ->
  (forall k, kmalloc_ret alloc k <> 0) ->
  region_fresh as_ vaddr memsize (hpt st) ->
  exists st1,
    as_define_region L alloc as_ vaddr memsize readable writeable executable st
      = Ret 0 st1 /\
    forall start,
      region_base vaddr <= start < region_top vaddr memsize ->
      find L as_ (PAGE_SIZE * start) st1
      = Some (Entry (u32 as_) (PAGE_SIZE * start)
                    (region_entry_lo L
                       (Z.shiftl (Z.lor (Z.lor readable writeable) executable) 1))).
Proof.
  intros HF Hne H0 Hle Hk Hfresh.
  destruct (region_range vaddr memsize H0 Hle) as [Hb Ht].
  set (permissions := Z.shiftl (Z.lor (Z.lor readable writeable) executable) 1).
  set (n := Z.to_nat (region_top vaddr memsize - region_base vaddr)).
  destruct (Z.le_gt_cases (region_top vaddr memsize) (region_base vaddr)) as [Hn|Hn].
  - exists st. split; [|intros start Hs; lia].
    unfold as_define_region, define_memory, bind. fold permissions.
    destruct (Z.ltb_spec MIPS_KSEG0 (u32 (vaddr + memsize))); [lia|].
    fold (region_top vaddr memsize) (region_base vaddr).
    replace (Z.to_nat _) with 0%nat by lia. reflexivity.
  - destruct (define_pages_found n as_ (region_base vaddr) permissions st)
      as (st1 & Hrun & Hfound & _); try assumption.
    + subst n. lia.
    + intros s Hs. apply find_None_fresh. intros e He Hp.
      apply (Hfresh e s He Hp). subst n. lia.
    + exists st1. split.
      * unfold as_define_region, define_memory, bind. fold permissions.
        destruct (Z.ltb_spec MIPS_KSEG0 (u32 (vaddr + memsize))); [lia|].
        fold (region_top vaddr memsize) (region_base vaddr). fold n.
        now rewrite Hrun.
      * intros start Hs. apply Hfound. subst n. lia.
Qed.

Lemma region_entries_length n as_ start permissions :
  length (region_entries L n as_ start permissions) = n.
Proof.
  revert start. induction n as [|n IH]; intros start; simpl; [reflexivity|].
  now rewrite IH.
Qed.

(** X11: a region definition that returns 0 inserted exactly one entry per
    page of the region, all owned by the address space and with the same
    state bits, and left every older entry at its place in its chain. *)
Theorem as_define_region_adds_pages
    as_ vaddr memsize readable writeable executable st st1 :
  hpt st <> [] ->
  as_define_region L alloc as_ vaddr memsize readable writeable executable st
    = Ret 0 st1 ->
  let n := Z.to_nat (region_top vaddr memsize - region_base vaddr) in
  let permissions := Z.shiftl (Z.lor (Z.lor readable writeable) executable) 1 in
  entries (hpt st1)
    ≡ₚ region_entries L n as_ (region_base vaddr) permissions ++ entries (hpt st) /\
  length (entries (hpt st1)) = (n + length (entries (hpt st)))%nat /\
  Forall (fun e => pid e = u32 as_ /\
                   entry_lo e = region_entry_lo L permissions)
         (region_entries L n as_ (region_base vaddr) permissions) /\
  extends (hpt st) (hpt st1).
Proof.
  intros Hne Hrun n permissions.
  assert (Hext : extends (hpt st) (hpt st1)).
  { apply (as_define_region_invariant (fun s => extends (hpt st) (hpt s)))
      in Hrun; [assumption| |apply extends_refl].
    intros s hi lo b s' Hs Hins.
    apply insert_page_table_entry_inv in Hins as (_ & _ & ->).
    eapply extends_trans; [exact Hs|]. apply extends_hpt_insert. }
  apply as_define_region_inv, define_memory_inv in Hrun
    as [(E & _) | (_ & _ & Hperm & _)]; [discriminate| |assumption].
  fold n permissions in Hperm. split; [exact Hperm|]. split; [|split; [|exact Hext]].
  - now rewrite Hperm, length_app, region_entries_length.
  - clear. generalize (region_base vaddr). induction n as [|n IH]; intros start;
      simpl; constructor; auto.
Qed.

Lemma define_memory_unfold as_ addr memsize permissions st :
  define_memory L alloc as_ addr memsize permissions st
  = if MIPS_KSEG0 <? u32 (addr + memsize) then Ret EFAULT st
    else define_pages L alloc
           (Z.to_nat (region_top addr memsize - region_base addr))
           as_ (region_base addr) permissions st.
Proof. unfold define_memory. now destruct (_ <? _). Qed.

(** X12: the stack region ends exactly at [USERSTACK], which the range check
    accepts. With a heap that does not run out [as_define_stack] returns 0 and
    [USERSTACK] as the stack pointer, having inserted [STACK_PAGE] entries,
    whose tags are the addresses of the [STACK_PAGE] pages below
    [USERSTACK]. *)
Theorem as_define_stack_pages as_ st :
  FLAG_OFFSET L = 12 -> hpt st <> [] ->
  0 <= STACK_PAGE L -> PAGE_SIZE * STACK_PAGE L <= USERSTACK ->
  (forall k, kmalloc_ret alloc k <> 0) ->
  exists st1,
    as_define_stack L alloc as_ st = Ret (0, USERSTACK) st1 /\
    let stack := region_entries L (Z.to_nat (STACK_PAGE L)) as_
                   (USERSTACK / PAGE_SIZE - STACK_PAGE L)
                   (Z.shiftl (HPTABLE_STACK_RW L) 1) in
    entries (hpt st1) ≡ₚ stack ++ entries (hpt st) /\
    length stack = Z.to_nat (STACK_PAGE L) /\
    Forall (fun e => pid e = u32 as_ /\
                     USERSTACK - PAGE_SIZE * STACK_PAGE L <= virtual_tag e < USERSTACK /\
                     virtual_tag e mod PAGE_SIZE = 0) stack.
Proof.
  intros HF Hne Hsp Hle Hk.
  set (base := 524288 - STACK_PAGE L).
  assert (Hsize : u32 (PAGE_SIZE * STACK_PAGE L) = PAGE_SIZE * STACK_PAGE L)
    by (unfold u32, USERSTACK, MIPS_KSEG0, PAGE_SIZE in *; apply Z.mod_small; lia).
  assert (Hloc : u32 (USERSTACK - PAGE_SIZE * STACK_PAGE L) = PAGE_SIZE * base)
    by (unfold u32, USERSTACK, MIPS_KSEG0, PAGE_SIZE in *; subst base;
        rewrite Z.mod_small; lia).
  assert (Hsum : u32 (PAGE_SIZE * base + PAGE_SIZE * STACK_PAGE L) = MIPS_KSEG0)
    by (unfold u32, USERSTACK, MIPS_KSEG0, PAGE_SIZE in *; subst base;
        rewrite Z.mod_small; lia).
  assert (Hbase : region_base (PAGE_SIZE * base) = base)
    by (unfold region_base, PAGE_SIZE; rewrite Z.mul_comm; now apply Z.div_mul).
  assert (Htop : region_top (PAGE_SIZE * base) (PAGE_SIZE * STACK_PAGE L) = 524288)
    by (unfold region_top; rewrite Hsum; reflexivity).
  assert (Hn : 524288 - base = STACK_PAGE L) by (subst base; lia).
  destruct (define_pages_total L alloc (Z.to_nat (STACK_PAGE L)) as_ base
              (Z.shiftl (HPTABLE_STACK_RW L) 1) st Hk) as [st1 Hrun].
  exists st1.
  assert (Hmem : define_memory L alloc as_ (PAGE_SIZE * base)
                   (PAGE_SIZE * STACK_PAGE L)
                   (Z.shiftl (HPTABLE_STACK_RW L) 1) st = Ret 0 st1).
  { rewrite define_memory_unfold, Hsum, Z.ltb_irrefl, Htop, Hbase, Hn.
    exact Hrun. }
  change (USERSTACK / PAGE_SIZE - STACK_PAGE L) with base.
  split; [|split; [|split]].
  - unfold as_define_stack, bind. rewrite Hsize, Hloc, Hmem. reflexivity.
  - apply define_pages_inv in Hrun as (_ & Hperm & _); [|assumption].
    exact Hperm.
  - apply region_entries_length.
  - apply Forall_forall. intros e He.
    assert (0 <= base /\ base + Z.of_nat (Z.to_nat (STACK_PAGE L)) <= 2 ^ 20)
      as [Hb0 Hb1]
      by (unfold USERSTACK, MIPS_KSEG0, PAGE_SIZE in Hle; subst base; lia).
    apply region_entries_spec in He as (Hp & _ & s & Hs & _ & Htag);
      [|assumption|assumption|assumption].
    split; [assumption|]. rewrite Htag.
    unfold USERSTACK, MIPS_KSEG0, PAGE_SIZE in *. subst base. split; [lia|].
    rewrite Z.mul_comm. apply Z.mod_mul. discriminate.
Qed.

(** *** Frame allocation on demand *)

Lemma entry_eta (e : hpt_entry) : Entry (pid e) (entry_hi e) (entry_lo e) = e.
Proof. now destruct e. Qed.

(** X13: when [alloc_kpages] fails, [allocate_memory] returns [ENOMEM] and
    the table is exactly as it was: or-ing the null frame into the entry
    changes nothing. *)
Theorem allocate_memory_failure i j st :
  u32 (alloc_kpages_ret alloc (kpages_calls st)) = 0 ->
  exists st1,
    allocate_memory alloc i j st = Ret ENOMEM st1 /\
    hpt st1 = hpt st /\ kpages_calls st1 = S (kpages_calls st).
Proof.
  intros Hv. unfold allocate_memory, bind, alloc_kpages, modify. rewrite Hv.
  eexists. split; [reflexivity|]. simpl. split; [|reflexivity].
  apply list_alter_id. intros c. apply list_alter_id. intros e.
  rewrite Z.lor_0_r. apply entry_eta.
Qed.

(** X14: when [alloc_kpages] returns a page-aligned frame for an entry that
    has none, [allocate_memory] returns 0 and the entry, still at its place
    and with the same owner and tag, has that frame; its bits outside the
    frame field are unchanged, and so is every other entry. *)
Theorem allocate_memory_success i j ptr st :
  let vaddr := u32 (alloc_kpages_ret alloc (kpages_calls st)) in
  bucket (hpt st) i !! j = Some ptr ->
  frame_of ptr = 0 -> vaddr <> 0 -> Z.land vaddr PAGE_FRAME = vaddr ->
  exists st1 e,
    allocate_memory alloc i j st = Ret 0 st1 /\
    bucket (hpt st1) i !! j = Some e /\
    pid e = pid ptr /\ entry_hi e = entry_hi ptr /\
    frame_of e = vaddr /\
    (forall n, Z.testbit PAGE_FRAME n = false ->
               Z.testbit (entry_lo e) n = Z.testbit (entry_lo ptr) n) /\
    (forall i' j', (i', j') <> (i, j) ->
                   bucket (hpt st1) i' !! j' = bucket (hpt st) i' !! j').
Proof.
  intros vaddr Hptr Hframe Hv Haligned.
  unfold allocate_memory, bind, alloc_kpages, modify. fold vaddr.
  destruct (Z.eqb_spec vaddr 0) as [|_]; [contradiction|].
  do 2 eexists. split; [reflexivity|]. simpl.
  pose proof (bucket_Some_lt _ _ _ _ Hptr) as Hi.
  split; [|split; [|split; [|split; [|split]]]].
  - rewrite bucket_alter_eq by assumption.
    rewrite list_lookup_alter_eq, Hptr. reflexivity.
  - reflexivity.
  - reflexivity.
  - unfold frame_of in *. cbn [entry_lo].
    now rewrite Z.land_lor_distr_l, Hframe, Haligned.
  - intros n Hn. cbn [entry_lo]. rewrite Z.lor_spec.
    assert (Z.testbit vaddr n = false) as ->; [|apply orb_false_r].
    rewrite <- Haligned, Z.land_spec, Hn. apply andb_false_r.
  - intros i' j' Hne. destruct (decide (i = i')) as [<-|Hi'].
    + rewrite bucket_alter_eq by assumption.
      rewrite list_lookup_alter_ne; [reflexivity|]. congruence.
    + now rewrite bucket_alter_ne.
Qed.

(** *** The load phase and lookup *)

Lemma find_chain_complete p q v (c : chain) :
  find_chain p v (complete_chain L q c)
  = (fun e => if pid e =? q then without_swrite L e else e) <$> find_chain p v c.
Proof.
  induction c as [|e c IH]; simpl; [reflexivity|].
  destruct (pid e =? q) eqn:Eq; simpl; rewrite ?Eq;
    destruct ((pid e =? p) && (v =? Z.land (entry_hi e) PAGE_FRAME)); simpl;
    rewrite ?Eq; auto.
Qed.

(** X15: [as_complete_load] does not change which key finds which entry.
    For every owner and tag, [find] afterwards returns the entry it returned
    before, with the bits of [HPTABLE_SWRITE] cleared when the owner is the
    address space whose load completed, and untouched otherwise. *)
Theorem find_after_complete_load as_ st :
  exists st1,
    as_complete_load L as_ st = Ret 0 st1 /\
    forall a v,
      find L a v st1
      = if decide (u32 a = u32 as_)
        then without_swrite L <$> find L a v st
        else find L a v st.
Proof.
  destruct (as_complete_load_spec L as_ st) as (st1 & Hrun & Hhpt).
  exists st1. split; [assumption|]. intros a v. unfold find.
  rewrite (hpt_hash_length L a v st) by (rewrite Hhpt; apply length_map).
  rewrite Hhpt, bucket_map. unfold bucket.
  destruct (hpt st !! _) as [c|]; simpl.
  - rewrite find_chain_complete.
    destruct (find_chain (u32 a) v c) as [e|] eqn:Hf; simpl.
    + apply find_chain_Some in Hf as (_ & Hp & _).
      destruct (decide (u32 a = u32 as_)) as [E|E]; simpl.
      * destruct (Z.eqb_spec (pid e) (u32 as_)); [reflexivity | congruence].
      * destruct (Z.eqb_spec (pid e) (u32 as_)); [congruence | reflexivity].
    + now destruct (decide _).
  - now destruct (decide _).
Qed.

(** X18: what [find] returns is in the table and has the key asked for: an
    entry of the address space whose page-aligned tag is the one passed. *)
Theorem find_sound as_ v e st :
  find L as_ v st = Some e ->
  e ∈ entries (hpt st) /\ pid e = u32 as_ /\ virtual_tag e = v /\
  exists j, bucket (hpt st) (Z.to_nat (hpt_hash L as_ v st)) !! j = Some e.
Proof.
  unfold find. intros H. apply find_chain_Some in H as (He & Hp & Hv).
  apply list_elem_of_lookup_1 in He as [j Hj].
  split; [apply elem_of_entries; eauto|]. eauto.
Qed.

(** X19: [as_destroy] and [as_complete_load] end with a flush: when they
    return, every slot of the translation cache below [NUM_TLB] holds the
    invalid entry of its index. *)
Theorem table_mutations_flush as_ st :
  exists st1 st2,
    as_destroy as_ st = Ret tt st1 /\
    as_complete_load L as_ st = Ret 0 st2 /\
    forall k, (k < NUM_TLB)%nat -> (k < length (tlb st))%nat ->
              tlb st1 !! k = Some (invalid_slot k) /\
              tlb st2 !! k = Some (invalid_slot k).
Proof.
  unfold as_destroy, as_complete_load, bind, get, modify.
  rewrite destroy_buckets_spec.
  match goal with |- context [tlb_flush ?s] =>
    destruct (tlb_flush_slots s) as (t1 & Hrun1 & _ & Hs1); rewrite Hrun1 end.
  match goal with |- context [tlb_flush ?s] =>
    destruct (tlb_flush_slots s) as (t2 & Hrun2 & _ & Hs2); rewrite Hrun2 end.
  unfold kfree, ret. do 2 eexists. split; [reflexivity|]. split; [reflexivity|].
  intros k Hk Hlen. simpl in *. rewrite Hs1, Hs2 by assumption.
  destruct (decide _); [auto | lia].
Qed.

(** *** Duplication of an address space without entries *)

(** From a cursor behind which no entry belongs to the old address space, the
    loops only advance: they return 0 with the state untouched once the fuel
    covers the entries and buckets that are left. *)
Lemma copy_loop_skips fuel p newas i j st :
  (forall e, e ∈ entries (hpt st) -> pid e <> p) ->
  (j <= length (bucket (hpt st) i))%nat ->
  (length (entries (drop i (hpt st))) + length (drop i (hpt st)) + 1
   <= fuel + j)%nat ->
  copy_loop L alloc fuel p newas i j st = Ret 0 st.
Proof.
  intros Hnone. revert i j. induction fuel as [|fuel IH]; intros i j Hj Hfuel.
  - exfalso. unfold bucket in Hj. destruct (hpt st !! i) as [c|] eqn:Hc.
    + rewrite (drop_S _ _ _ Hc) in Hfuel. unfold entries in Hfuel.
      simpl in Hj, Hfuel. rewrite length_app in Hfuel. lia.
    + simpl in Hj. lia.
  - simpl. unfold bind at 1. unfold get.
    destruct (Nat.leb_spec (length (hpt st)) i) as [Hle|Hlt]; [reflexivity|].
    destruct (lookup_lt_is_Some_2 (hpt st) i Hlt) as [c Hc].
    unfold bucket in Hj |- *. rewrite Hc in Hj |- *. simpl in Hj |- *.
    rewrite (drop_S _ _ _ Hc) in Hfuel. unfold entries in Hfuel.
    simpl in Hfuel. rewrite length_app in Hfuel.
    destruct (c !! j) as [ptr|] eqn:Hptr.
    + assert (Hp : pid ptr <> p).
      { apply Hnone, elem_of_entries. exists i, j. unfold bucket. now rewrite Hc. }
      destruct (Z.eqb_spec (pid ptr) p) as [|_]; [contradiction|]. simpl.
      apply lookup_lt_Some in Hptr.
      apply IH; unfold bucket; rewrite ?Hc; simpl.
      * lia.
      * rewrite (drop_S _ _ _ Hc). unfold entries. simpl.
        rewrite length_app. lia.
    + apply lookup_ge_None in Hptr. apply IH; [lia|].
      unfold entries. lia.
Qed.

(** X16: [as_copy] of an address space that owns no entry terminates and
    succeeds once the handle is allocated: with fuel for one step per entry
    and per bucket of the table it returns 0 and the new handle, and the
    table and the logs are as they were. *)
Theorem as_copy_of_empty fuel old st :
  owned_by (u32 old) (entries (hpt st)) = [] ->
  kmalloc_ret alloc (kmalloc_calls st) <> 0 ->
  (length (entries (hpt st)) + length (hpt st) + 1 <= fuel)%nat ->
  exists st1,
    as_copy L alloc fuel old st
      = Ret (0, Some (kmalloc_ret alloc (kmalloc_calls st))) st1 /\
    hpt st1 = hpt st /\ freed_pages st1 = freed_pages st /\
    kfreed st1 = kfreed st.
Proof.
  intros Hnone Hk Hfuel. unfold as_copy.
  destruct (as_create_cases alloc st) as [(K & _) | (_ & t & Hc)]; [contradiction|].
  rewrite (bind_Ret _ _ _ _ _ Hc).
  destruct (Z.eqb_spec (kmalloc_ret alloc (kmalloc_calls st)) 0) as [|_];
    [contradiction|].
  unfold bind. rewrite copy_loop_skips.
  - simpl. eexists. split; [reflexivity|]. auto.
  - simpl. intros e He Hp. unfold owned_by in Hnone.
    eapply (filter_nil_not_elem_of _ _ e Hnone); [exact Hp | exact He].
  - lia.
  - simpl. rewrite !drop_0. lia.
Qed.

(** X17: when the handle cannot be allocated, [as_copy] returns [ENOMEM]
    at once, whatever the fuel: no handle is stored, and the table, the
    translation cache and the logs are as they were. *)
Theorem as_copy_handle_failure fuel old st :
  kmalloc_ret alloc (kmalloc_calls st) = 0 ->
  exists st1,
    as_copy L alloc fuel old st = Ret (ENOMEM, None) st1 /\
    hpt st1 = hpt st /\ tlb st1 = tlb st /\
    freed_pages st1 = freed_pages st /\ kfreed st1 = kfreed st.
Proof.
  intros Hk. unfold as_copy.
  destruct (as_create_cases alloc st) as [(_ & Hc) | (K & _)]; [|contradiction].
  rewrite (bind_Ret _ _ _ _ _ Hc). simpl.
  eexists. split; [reflexivity|]. auto.
Qed.

(** *** What a returning duplication leaves *)

Lemma prefix_of_lookups (c c' : chain) :
  (forall j e, c !! j = Some e -> c' !! j = Some e) -> exists r, c' = c ++ r.
Proof.
  revert c'. induction c as [|e c IH]; intros c' H; [now exists c'|].
  destruct c' as [|e' c']; [specialize (H 0%nat e eq_refl); discriminate|].
  pose proof (H 0%nat e eq_refl) as H0. injection H0 as ->.
  destruct (IH c') as [r ->]; [intros j x Hj; exact (H (S j) x Hj)|].
  now exists r.
Qed.

Lemma find_extends a v e st st1 :
  extends (hpt st) (hpt st1) ->
  find L a v st = Some e -> find L a v st1 = Some e.
Proof.
  intros [Hlen Hext] Hf. unfold find in *.
  rewrite (hpt_hash_length L a v st) by assumption.
  destruct (prefix_of_lookups _ _ (Hext (Z.to_nat (hpt_hash L a v st)))) as [r ->].
  now rewrite find_chain_app, Hf.
Qed.

(** X20: whenever [as_copy] returns, with success or with [ENOMEM], every
    entry that was in the table is still at its place in its chain, nothing
    was passed to [free_kpages] or [kfree], and every key that [find]
    resolved before resolves to the same entry. *)
Theorem as_copy_keeps_table fuel old st r st1 :
  as_copy L alloc fuel old st = Ret r st1 ->
  only_added st st1 /\
  forall a v e, find L a v st = Some e -> find L a v st1 = Some e.
Proof.
  intros Hrun. apply as_copy_only_added in Hrun as Hadd.
  split; [assumption|]. intros a v e. apply find_extends, Hadd.
Qed.

(** X21: when the metadata allocation succeeds, [insert_page_table_entry]
    returns [true]; the new entry, with the owner, the page-aligned tag and
    the state passed, is the last of the chain of the bucket the key hashes
    to, the other chains and the number of buckets are unchanged, and the
    table has one entry more. *)
Theorem insert_links_at_tail as_ hi lo st :
  hpt st <> [] ->
  kmalloc_ret alloc (kmalloc_calls st) <> 0 ->
  exists st1,
    insert_page_table_entry L alloc as_ hi lo st = Ret true st1 /\
    let index := Z.to_nat (hpt_hash L as_ (Z.land hi PAGE_FRAME) st) in
    bucket (hpt st1) index
      = bucket (hpt st) index ++ [Entry (u32 as_) (Z.land hi PAGE_FRAME) lo] /\
    (forall i, i <> index -> bucket (hpt st1) i = bucket (hpt st) i) /\
    length (hpt st1) = length (hpt st) /\
    length (entries (hpt st1)) = S (length (entries (hpt st))).
Proof.
  intros Hne Hk.
  destruct (insert_page_table_entry_links_tail L alloc as_ hi lo st Hne Hk)
    as (st1 & Hrun & Hb & Hother & Hlen).
  exists st1. split; [assumption|]. cbv zeta in *.
  repeat split; try assumption.
  rewrite (insert_page_table_entry_ok L alloc as_ hi lo st Hk) in Hrun.
  injection Hrun as <-. simpl.
  now rewrite entries_hpt_insert.
Qed.

End Coverage.

(** ** Closed instances of the further properties *)

Lemma well_placed_one_page : well_placed std_layout one_page.
Proof.
  intros i j e He.
  destruct i as [|[|[|[|i]]]]; try (destruct j; discriminate).
  destruct j as [|j]; [|destruct j; discriminate].
  injection He as <-. reflexivity.
Qed.

Lemma unique_one_page : unique_binding (hpt one_page).
Proof.
  unfold unique_binding. change (entries (hpt one_page)) with [Entry A0 0x1000 0x309].
  simpl. apply NoDup_cons. split; [apply not_elem_of_nil | constructor].
Qed.

Lemma as_destroy_nothing_owned_witness :
  exists st1,
    as_destroy B0 one_page = Ret tt st1 /\
    hpt st1 = hpt one_page /\
    freed_pages st1 = freed_pages one_page /\
    kfreed st1 = kfreed one_page ++ [B0].
Proof. apply (as_destroy_nothing_owned B0 one_page). reflexivity. Defined.

Lemma unique_binding_kept_witness :
  exists st1 st2,
    as_destroy A0 one_page = Ret tt st1 /\ unique_binding (hpt st1) /\
    as_complete_load std_layout A0 one_page = Ret 0 st2 /\
    unique_binding (hpt st2).
Proof. apply (unique_binding_kept std_layout A0 one_page), unique_one_page. Defined.

Lemma find_none_iff_absent_witness :
  find std_layout A0 0x2000 one_page = None <->
  forall e, e ∈ entries (hpt one_page) ->
            ~ (pid e = u32 A0 /\ virtual_tag e = 0x2000).
Proof.
  apply (find_none_iff_absent std_layout A0 0x2000 one_page).
  exact well_placed_one_page.
Defined.

Lemma as_define_region_isolated_witness :
  exists st1,
    as_define_region std_layout never_fail B0 0x1000 8192 4 2 0 one_page
      = Ret 0 st1 /\
    find std_layout A0 0x1000 st1 = find std_layout A0 0x1000 one_page.
Proof.
  eexists. split; [vm_compute; reflexivity|].
  apply (as_define_region_isolated std_layout never_fail A0 0x1000 B0
           0x1000 8192 4 2 0 one_page 0).
  - discriminate.
  - discriminate.
  - vm_compute. reflexivity.
Defined.

Lemma well_placed_kept_witness :
  (exists st1, as_destroy A0 one_page = Ret tt st1 /\ well_placed std_layout st1) /\
  (exists st2, as_complete_load std_layout A0 one_page = Ret 0 st2 /\
               well_placed std_layout st2) /\
  (forall r st3,
     as_define_region std_layout never_fail A0 0x2000 8192 4 2 0 one_page
       = Ret r st3 ->
     well_placed std_layout st3).
Proof.
  apply (well_placed_kept std_layout never_fail A0 0x2000 8192 4 2 0 one_page).
  - discriminate.
  - exact well_placed_one_page.
Defined.

Lemma as_define_region_pages_found_witness :
  exists st1,
    as_define_region std_layout never_fail A0 0x2000 8192 4 2 0 one_page
      = Ret 0 st1 /\
    forall start,
      region_base 0x2000 <= start < region_top 0x2000 8192 ->
      find std_layout A0 (PAGE_SIZE * start) st1
      = Some (Entry (u32 A0) (PAGE_SIZE * start)
                    (region_entry_lo std_layout
                       (Z.shiftl (Z.lor (Z.lor 4 2) 0) 1))).
Proof.
  apply (as_define_region_pages_found std_layout never_fail A0 0x2000 8192 4 2 0).
  - reflexivity.
  - discriminate.
  - lia.
  - discriminate.
  - exact never_fail_kmalloc.
  - intros e start He Hp Hrange.
    apply elem_of_cons in He as [->|He]; [|now apply elem_of_nil in He].
    change (region_base 0x2000) with 2 in Hrange.
    change (region_top 0x2000 8192) with 4 in Hrange.
    change (virtual_tag (Entry A0 0x1000 0x309)) with 4096.
    unfold PAGE_SIZE. lia.
Defined.

Lemma as_define_region_adds_pages_witness :
  exists st1,
    as_define_region std_layout never_fail A0 0x2000 8192 4 2 0 one_page
      = Ret 0 st1 /\
    length (entries (hpt st1)) = 3%nat /\
    extends (hpt one_page) (hpt st1).
Proof.
  eexists. split; [vm_compute; reflexivity|].
  destruct (as_define_region_adds_pages std_layout never_fail A0 0x2000 8192 4 2 0
              one_page _ ltac:(discriminate) ltac:(vm_compute; reflexivity))
    as (_ & Hlen & _ & Hext).
  split; [exact Hlen | exact Hext].
Defined.

Lemma as_define_stack_pages_witness :
  exists st1,
    as_define_stack std_layout never_fail A0 one_page = Ret (0, USERSTACK) st1 /\
    length (entries (hpt st1)) = 17%nat.
Proof.
  destruct (as_define_stack_pages std_layout never_fail A0 one_page)
    as (st1 & Hrun & Hperm & Hlen & _).
  - reflexivity.
  - discriminate.
  - discriminate.
  - discriminate.
  - exact never_fail_kmalloc.
  - exists st1. split; [exact Hrun|].
    rewrite Hperm, length_app, Hlen. reflexivity.
Defined.

Lemma allocate_memory_failure_witness :
  exists st1,
    allocate_memory frames_exhausted 1 0 one_page = Ret ENOMEM st1 /\
    hpt st1 = hpt one_page /\ kpages_calls st1 = 1%nat.
Proof. apply (allocate_memory_failure frames_exhausted 1 0 one_page). reflexivity. Defined.

Lemma allocate_memory_success_witness :
  exists st1 e,
    allocate_memory never_fail 1 0 one_page = Ret 0 st1 /\
    bucket (hpt st1) 1 !! 0%nat = Some e /\
    pid e = A0 /\ entry_hi e = 0x1000 /\ frame_of e = 0x80100000.
Proof.
  destruct (allocate_memory_success never_fail 1 0 (Entry A0 0x1000 0x309) one_page)
    as (st1 & e & Hrun & He & Hp & Hhi & Hf & _).
  - reflexivity.
  - reflexivity.
  - discriminate.
  - reflexivity.
  - exists st1, e. auto.
Defined.

Lemma find_sound_witness :
  Entry A0 0x1000 0x309 ∈ entries (hpt one_page) /\
  pid (Entry A0 0x1000 0x309) = u32 A0 /\
  virtual_tag (Entry A0 0x1000 0x309) = 0x1000 /\
  exists j, bucket (hpt one_page)
                   (Z.to_nat (hpt_hash std_layout A0 0x1000 one_page)) !! j
            = Some (Entry A0 0x1000 0x309).
Proof. apply (find_sound std_layout A0 0x1000 _ one_page). reflexivity. Defined.

Lemma as_copy_of_empty_witness :
  exists st1,
    as_copy std_layout never_fail 6 B0 one_page
      = Ret (0, Some (kmalloc_ret never_fail (kmalloc_calls one_page))) st1 /\
    hpt st1 = hpt one_page /\ freed_pages st1 = freed_pages one_page /\
    kfreed st1 = kfreed one_page.
Proof.
  apply (as_copy_of_empty std_layout never_fail 6 B0 one_page).
  - reflexivity.
  - discriminate.
  - simpl. lia.
Defined.

Lemma as_copy_handle_failure_witness :
  exists st1,
    as_copy std_layout heap_exhausted 0 A0 one_page = Ret (ENOMEM, None) st1 /\
    hpt st1 = hpt one_page /\ tlb st1 = tlb one_page /\
    freed_pages st1 = freed_pages one_page /\ kfreed st1 = kfreed one_page.
Proof. apply (as_copy_handle_failure std_layout heap_exhausted 0 A0 one_page). reflexivity. Defined.

Lemma as_copy_keeps_table_witness :
  exists st1,
    as_copy std_layout last_frame 10 A0 one_frame = Ret (ENOMEM, None) st1 /\
    only_added one_frame st1 /\
    find std_layout A0 0x1000 st1 = Some (Entry A0 0x1000 0x8005070d).
Proof.
  destruct (observe_Ret (as_copy std_layout last_frame 10 A0 one_frame)
              (ENOMEM, None)
              [[]; [Entry A0 0x1000 0x8005070d;
                    Entry 0x80040040 0x1000 0x8010070d]; []; []] [] [])
    as (st1 & Hrun & _); [vm_compute; reflexivity|].
  exists st1. split; [exact Hrun|].
  destruct (as_copy_keeps_table std_layout last_frame 10 A0 one_frame _ _ Hrun)
    as [Hadd Hfind].
  split; [exact Hadd|]. now apply Hfind.
Defined.

Lemma insert_links_at_tail_witness :
  exists st1,
    insert_page_table_entry std_layout never_fail B0 0x1000 0x70d one_page
      = Ret true st1 /\
    bucket (hpt st1) 1 = [Entry A0 0x1000 0x309; Entry B0 0x1000 0x70d] /\
    length (entries (hpt st1)) = 2%nat.
Proof.
  destruct (insert_links_at_tail std_layout never_fail B0 0x1000 0x70d one_page)
    as (st1 & Hrun & Hb & _ & _ & Hn).
  - discriminate.
  - discriminate.
  - exists st1. split; [exact Hrun|]. split; [exact Hb | exact Hn].
Defined.
